(** * The written-variables-and-authorization printer of slither

    A shallow embedding of
    [slither/printers/functions/authorization.py]
    (class [PrinterWrittenVariablesAndAuthorization]): the list
    comprehensions of [get_msg_sender_checks] and the row construction of
    [output], over an explicit program model.

    Python objects that refer to each other (a function and the functions
    it calls) live in an arena: a program is a list of function records and
    a reference to a [Function] object is its index in that list. *)

From Stdlib Require Import String Ascii List Bool Arith NArith Lia.
From Stdlib Require Import Permutation Sorted Mergesort Relations.
Import ListNotations.

Local Open Scope string_scope.
Local Open Scope list_scope.

(** ** The program model, as the printer reads it *)

Module SolidityVariable.
(** A solidity variable read on a node ([msg.sender], [block.number], ...);
    the printer reads [v.name] only. *)
Record t := { name : string }.
End SolidityVariable.

Module Node.
(** A control-flow node. [contains_if] and [contains_require_or_assert]
    are the answers of the two methods of that name; [expression] is the
    text [str(n.expression)]. *)
Record t := {
  contains_if : bool;
  contains_require_or_assert : bool;
  solidity_variables_read : list SolidityVariable.t;
  expression : string
}.
End Node.

(** What a call operation or a modifier slot points to: a [Function] object
    (an index in the arena; a [Modifier] is a [Function] too), or an object
    of another class ([SolidityFunction], [Variable], [Contract], ...), on
    which [isinstance(_, Function)] is false. *)
Inductive Callee :=
| FunctionRef (f : nat)
| NotAFunction (what : string).

Module InternalCall.
(** An internal-call operation [ir]; [ir.function] is its target. *)
Record t := { function : Callee }.
End InternalCall.

Module StateVariable.
(** A state variable. [name] is [None] for Python's [None]; [type] is
    [None] when [state_var.type] is [None] and [Some s] when it is a type
    object with [str(state_var.type) = s]; [visibility] and [location] are
    [None] when the object has no such attribute, [Some None] when the
    attribute holds [None] and [Some (Some s)] when it holds the string
    [s]. *)
Record t := {
  name : option string;
  type : option string;
  visibility : option (option string);
  location : option (option string)
}.
End StateVariable.

Module Function.
(** A function object. [internal_calls] are the call operations of its own
    body, [modifiers] the objects attached as modifiers, [nodes] its
    control-flow nodes, and [all_state_variables_written] the answer of the
    program model's transitive query of that name. *)
Record t := {
  name : string;
  internal_calls : list InternalCall.t;
  modifiers : list Callee;
  nodes : list Node.t;
  all_state_variables_written : list StateVariable.t
}.

(** The record an index outside the arena stands for: a function with an
    empty body. *)
Definition empty : t :=
  {| name := EmptyString; internal_calls := []; modifiers := []; nodes := [];
     all_state_variables_written := [] |}.
End Function.

Module Contract.
Record t := {
  name : string;
  state_variables : list StateVariable.t;
  functions : list nat
}.
End Contract.

(** The arena of function objects. *)
Definition Program := list Function.t.

Definition fn (pm : Program) (f : nat) : Function.t := nth f pm Function.empty.

(** ** Python built-ins used by the printer *)

(** [x in l] for a list of strings. *)
Definition str_in (x : string) (l : list string) : bool :=
  existsb (String.eqb x) l.

(** [sorted] on a list of strings: Python compares strings code point by
    code point, a proper prefix first, as [String.leb] does on bytes (and
    UTF-8 keeps the order of code points).  The order is total and
    antisymmetric, so every stable sort returns the same list; merge sort
    stands for Python's. *)
Module StringOrder <: Orders.TotalLeBool.
Definition t := string.
Definition leb := String.leb.
Theorem leb_total : forall a1 a2, leb a1 a2 = true \/ leb a2 a1 = true.
Proof. exact String.leb_total. Qed.
End StringOrder.

Module StringSort := Sort StringOrder.

Definition sorted (l : list string) : list string := StringSort.sort l.

Definition str_le (a b : string) : Prop := String.leb a b = true.

(** [repr] of a string and [str] of a list of strings.  Python quotes with
    ['], unless the string holds a ['] and no double quote; it escapes the
    backslash, the chosen quote, tab, newline, carriage return, and every
    other character that [str.isprintable] rejects: as [\xhh] below 256, as
    [\uhhhh] below 65536 and as [\Uhhhhhhhh] from there on.  A string is the
    UTF-8 encoding of the Python string; a byte from 128 on that is not part
    of an encoded code point does not occur in such a string and is kept. *)
Definition squote : ascii := ascii_of_nat 39.
Definition dquote : ascii := ascii_of_nat 34.
Definition backslash : ascii := ascii_of_nat 92.

Fixpoint has_char (c : ascii) (s : string) : bool :=
  match s with
  | EmptyString => false
  | String d s' => Ascii.eqb c d || has_char c s'
  end.

Definition hex_digit (n : nat) : ascii :=
  if Nat.ltb n 10 then ascii_of_nat (48 + n) else ascii_of_nat (87 + n).

Definition escape_char (q c : ascii) : string :=
  let n := nat_of_ascii c in
  if Ascii.eqb c backslash then String backslash (String backslash EmptyString)
  else if Ascii.eqb c q then String backslash (String q EmptyString)
  else if Nat.eqb n 9 then String backslash "t"
  else if Nat.eqb n 10 then String backslash "n"
  else if Nat.eqb n 13 then String backslash "r"
  else if Nat.ltb n 32 || Nat.eqb n 127 then
    String backslash (String "x" (String (hex_digit (n / 16))
      (String (hex_digit (n mod 16)) EmptyString)))
  else String c EmptyString.

(** The code points from 128 on for which [str.isprintable] is false (the
    general categories Other and Separator), as the ranges of CPython 3.11,
    whose tables are those of Unicode 14.0. *)
Definition unprintable_ranges : list (N * N) :=
  [(128, 160); (173, 173); (888, 889); (896, 899); (907, 907); (909, 909);
   (930, 930); (1328, 1328); (1367, 1368); (1419, 1420); (1424, 1424);
   (1480, 1487); (1515, 1518); (1525, 1541); (1564, 1564); (1757, 1757);
   (1806, 1807); (1867, 1868); (1970, 1983); (2043, 2044); (2094, 2095);
   (2111, 2111); (2140, 2141); (2143, 2143); (2155, 2159); (2191, 2199);
   (2274, 2274); (2436, 2436); (2445, 2446); (2449, 2450); (2473, 2473);
   (2481, 2481); (2483, 2485); (2490, 2491); (2501, 2502); (2505, 2506);
   (2511, 2518); (2520, 2523); (2526, 2526); (2532, 2533); (2559, 2560);
   (2564, 2564); (2571, 2574); (2577, 2578); (2601, 2601); (2609, 2609);
   (2612, 2612); (2615, 2615); (2618, 2619); (2621, 2621); (2627, 2630);
   (2633, 2634); (2638, 2640); (2642, 2648); (2653, 2653); (2655, 2661);
   (2679, 2688); (2692, 2692); (2702, 2702); (2706, 2706); (2729, 2729);
   (2737, 2737); (2740, 2740); (2746, 2747); (2758, 2758); (2762, 2762);
   (2766, 2767); (2769, 2783); (2788, 2789); (2802, 2808); (2816, 2816);
   (2820, 2820); (2829, 2830); (2833, 2834); (2857, 2857); (2865, 2865);
   (2868, 2868); (2874, 2875); (2885, 2886); (2889, 2890); (2894, 2900);
   (2904, 2907); (2910, 2910); (2916, 2917); (2936, 2945); (2948, 2948);
   (2955, 2957); (2961, 2961); (2966, 2968); (2971, 2971); (2973, 2973);
   (2976, 2978); (2981, 2983); (2987, 2989); (3002, 3005); (3011, 3013);
   (3017, 3017); (3022, 3023); (3025, 3030); (3032, 3045); (3067, 3071);
   (3085, 3085); (3089, 3089); (3113, 3113); (3130, 3131); (3141, 3141);
   (3145, 3145); (3150, 3156); (3159, 3159); (3163, 3164); (3166, 3167);
   (3172, 3173); (3184, 3190); (3213, 3213); (3217, 3217); (3241, 3241);
   (3252, 3252); (3258, 3259); (3269, 3269); (3273, 3273); (3278, 3284);
   (3287, 3292); (3295, 3295); (3300, 3301); (3312, 3312); (3315, 3327);
   (3341, 3341); (3345, 3345); (3397, 3397); (3401, 3401); (3408, 3411);
   (3428, 3429); (3456, 3456); (3460, 3460); (3479, 3481); (3506, 3506);
   (3516, 3516); (3518, 3519); (3527, 3529); (3531, 3534); (3541, 3541);
   (3543, 3543); (3552, 3557); (3568, 3569); (3573, 3584); (3643, 3646);
   (3676, 3712); (3715, 3715); (3717, 3717); (3723, 3723); (3748, 3748);
   (3750, 3750); (3774, 3775); (3781, 3781); (3783, 3783); (3790, 3791);
   (3802, 3803); (3808, 3839); (3912, 3912); (3949, 3952); (3992, 3992);
   (4029, 4029); (4045, 4045); (4059, 4095); (4294, 4294); (4296, 4300);
   (4302, 4303); (4681, 4681); (4686, 4687); (4695, 4695); (4697, 4697);
   (4702, 4703); (4745, 4745); (4750, 4751); (4785, 4785); (4790, 4791);
   (4799, 4799); (4801, 4801); (4806, 4807); (4823, 4823); (4881, 4881);
   (4886, 4887); (4955, 4956); (4989, 4991); (5018, 5023); (5110, 5111);
   (5118, 5119); (5760, 5760); (5789, 5791); (5881, 5887); (5910, 5918);
   (5943, 5951); (5972, 5983); (5997, 5997); (6001, 6001); (6004, 6015);
   (6110, 6111); (6122, 6127); (6138, 6143); (6158, 6158); (6170, 6175);
   (6265, 6271); (6315, 6319); (6390, 6399); (6431, 6431); (6444, 6447);
   (6460, 6463); (6465, 6467); (6510, 6511); (6517, 6527); (6572, 6575);
   (6602, 6607); (6619, 6621); (6684, 6685); (6751, 6751); (6781, 6782);
   (6794, 6799); (6810, 6815); (6830, 6831); (6863, 6911); (6989, 6991);
   (7039, 7039); (7156, 7163); (7224, 7226); (7242, 7244); (7305, 7311);
   (7355, 7356); (7368, 7375); (7419, 7423); (7958, 7959); (7966, 7967);
   (8006, 8007); (8014, 8015); (8024, 8024); (8026, 8026); (8028, 8028);
   (8030, 8030); (8062, 8063); (8117, 8117); (8133, 8133); (8148, 8149);
   (8156, 8156); (8176, 8177); (8181, 8181); (8191, 8207); (8232, 8239);
   (8287, 8303); (8306, 8307); (8335, 8335); (8349, 8351); (8385, 8399);
   (8433, 8447); (8588, 8591); (9255, 9279); (9291, 9311); (11124, 11125);
   (11158, 11158); (11508, 11512); (11558, 11558); (11560, 11564);
   (11566, 11567); (11624, 11630); (11633, 11646); (11671, 11679);
   (11687, 11687); (11695, 11695); (11703, 11703); (11711, 11711);
   (11719, 11719); (11727, 11727); (11735, 11735); (11743, 11743);
   (11870, 11903); (11930, 11930); (12020, 12031); (12246, 12271);
   (12284, 12288); (12352, 12352); (12439, 12440); (12544, 12548);
   (12592, 12592); (12687, 12687); (12772, 12783); (12831, 12831);
   (42125, 42127); (42183, 42191); (42540, 42559); (42744, 42751);
   (42955, 42959); (42962, 42962); (42964, 42964); (42970, 42993);
   (43053, 43055); (43066, 43071); (43128, 43135); (43206, 43213);
   (43226, 43231); (43348, 43358); (43389, 43391); (43470, 43470);
   (43482, 43485); (43519, 43519); (43575, 43583); (43598, 43599);
   (43610, 43611); (43715, 43738); (43767, 43776); (43783, 43784);
   (43791, 43792); (43799, 43807); (43815, 43815); (43823, 43823);
   (43884, 43887); (44014, 44015); (44026, 44031); (55204, 55215);
   (55239, 55242); (55292, 63743); (64110, 64111); (64218, 64255);
   (64263, 64274); (64280, 64284); (64311, 64311); (64317, 64317);
   (64319, 64319); (64322, 64322); (64325, 64325); (64451, 64466);
   (64912, 64913); (64968, 64974); (64976, 65007); (65050, 65055);
   (65107, 65107); (65127, 65127); (65132, 65135); (65141, 65141);
   (65277, 65280); (65471, 65473); (65480, 65481); (65488, 65489);
   (65496, 65497); (65501, 65503); (65511, 65511); (65519, 65531);
   (65534, 65535); (65548, 65548); (65575, 65575); (65595, 65595);
   (65598, 65598); (65614, 65615); (65630, 65663); (65787, 65791);
   (65795, 65798); (65844, 65846); (65935, 65935); (65949, 65951);
   (65953, 65999); (66046, 66175); (66205, 66207); (66257, 66271);
   (66300, 66303); (66340, 66348); (66379, 66383); (66427, 66431);
   (66462, 66462); (66500, 66503); (66518, 66559); (66718, 66719);
   (66730, 66735); (66772, 66775); (66812, 66815); (66856, 66863);
   (66916, 66926); (66939, 66939); (66955, 66955); (66963, 66963);
   (66966, 66966); (66978, 66978); (66994, 66994); (67002, 67002);
   (67005, 67071); (67383, 67391); (67414, 67423); (67432, 67455);
   (67462, 67462); (67505, 67505); (67515, 67583); (67590, 67591);
   (67593, 67593); (67638, 67638); (67641, 67643); (67645, 67646);
   (67670, 67670); (67743, 67750); (67760, 67807); (67827, 67827);
   (67830, 67834); (67868, 67870); (67898, 67902); (67904, 67967);
   (68024, 68027); (68048, 68049); (68100, 68100); (68103, 68107);
   (68116, 68116); (68120, 68120); (68150, 68151); (68155, 68158);
   (68169, 68175); (68185, 68191); (68256, 68287); (68327, 68330);
   (68343, 68351); (68406, 68408); (68438, 68439); (68467, 68471);
   (68498, 68504); (68509, 68520); (68528, 68607); (68681, 68735);
   (68787, 68799); (68851, 68857); (68904, 68911); (68922, 69215);
   (69247, 69247); (69290, 69290); (69294, 69295); (69298, 69375);
   (69416, 69423); (69466, 69487); (69514, 69551); (69580, 69599);
   (69623, 69631); (69710, 69713); (69750, 69758); (69821, 69821);
   (69827, 69839); (69865, 69871); (69882, 69887); (69941, 69941);
   (69960, 69967); (70007, 70015); (70112, 70112); (70133, 70143);
   (70162, 70162); (70207, 70271); (70279, 70279); (70281, 70281);
   (70286, 70286); (70302, 70302); (70314, 70319); (70379, 70383);
   (70394, 70399); (70404, 70404); (70413, 70414); (70417, 70418);
   (70441, 70441); (70449, 70449); (70452, 70452); (70458, 70458);
   (70469, 70470); (70473, 70474); (70478, 70479); (70481, 70486);
   (70488, 70492); (70500, 70501); (70509, 70511); (70517, 70655);
   (70748, 70748); (70754, 70783); (70856, 70863); (70874, 71039);
   (71094, 71095); (71134, 71167); (71237, 71247); (71258, 71263);
   (71277, 71295); (71354, 71359); (71370, 71423); (71451, 71452);
   (71468, 71471); (71495, 71679); (71740, 71839); (71923, 71934);
   (71943, 71944); (71946, 71947); (71956, 71956); (71959, 71959);
   (71990, 71990); (71993, 71994); (72007, 72015); (72026, 72095);
   (72104, 72105); (72152, 72153); (72165, 72191); (72264, 72271);
   (72355, 72367); (72441, 72703); (72713, 72713); (72759, 72759);
   (72774, 72783); (72813, 72815); (72848, 72849); (72872, 72872);
   (72887, 72959); (72967, 72967); (72970, 72970); (73015, 73017);
   (73019, 73019); (73022, 73022); (73032, 73039); (73050, 73055);
   (73062, 73062); (73065, 73065); (73103, 73103); (73106, 73106);
   (73113, 73119); (73130, 73439); (73465, 73647); (73649, 73663);
   (73714, 73726); (74650, 74751); (74863, 74863); (74869, 74879);
   (75076, 77711); (77811, 77823); (78895, 82943); (83527, 92159);
   (92729, 92735); (92767, 92767); (92778, 92781); (92863, 92863);
   (92874, 92879); (92910, 92911); (92918, 92927); (92998, 93007);
   (93018, 93018); (93026, 93026); (93048, 93052); (93072, 93759);
   (93851, 93951); (94027, 94030); (94088, 94094); (94112, 94175);
   (94181, 94191); (94194, 94207); (100344, 100351); (101590, 101631);
   (101641, 110575); (110580, 110580); (110588, 110588); (110591, 110591);
   (110883, 110927); (110931, 110947); (110952, 110959); (111356, 113663);
   (113771, 113775); (113789, 113791); (113801, 113807); (113818, 113819);
   (113824, 118527); (118574, 118575); (118599, 118607); (118724, 118783);
   (119030, 119039); (119079, 119080); (119155, 119162); (119275, 119295);
   (119366, 119519); (119540, 119551); (119639, 119647); (119673, 119807);
   (119893, 119893); (119965, 119965); (119968, 119969); (119971, 119972);
   (119975, 119976); (119981, 119981); (119994, 119994); (119996, 119996);
   (120004, 120004); (120070, 120070); (120075, 120076); (120085, 120085);
   (120093, 120093); (120122, 120122); (120127, 120127); (120133, 120133);
   (120135, 120137); (120145, 120145); (120486, 120487); (120780, 120781);
   (121484, 121498); (121504, 121504); (121520, 122623); (122655, 122879);
   (122887, 122887); (122905, 122906); (122914, 122914); (122917, 122917);
   (122923, 123135); (123181, 123183); (123198, 123199); (123210, 123213);
   (123216, 123535); (123567, 123583); (123642, 123646); (123648, 124895);
   (124903, 124903); (124908, 124908); (124911, 124911); (124927, 124927);
   (125125, 125126); (125143, 125183); (125260, 125263); (125274, 125277);
   (125280, 126064); (126133, 126208); (126270, 126463); (126468, 126468);
   (126496, 126496); (126499, 126499); (126501, 126502); (126504, 126504);
   (126515, 126515); (126520, 126520); (126522, 126522); (126524, 126529);
   (126531, 126534); (126536, 126536); (126538, 126538); (126540, 126540);
   (126544, 126544); (126547, 126547); (126549, 126550); (126552, 126552);
   (126554, 126554); (126556, 126556); (126558, 126558); (126560, 126560);
   (126563, 126563); (126565, 126566); (126571, 126571); (126579, 126579);
   (126584, 126584); (126589, 126589); (126591, 126591); (126602, 126602);
   (126620, 126624); (126628, 126628); (126634, 126634); (126652, 126703);
   (126706, 126975); (127020, 127023); (127124, 127135); (127151, 127152);
   (127168, 127168); (127184, 127184); (127222, 127231); (127406, 127461);
   (127491, 127503); (127548, 127551); (127561, 127567); (127570, 127583);
   (127590, 127743); (128728, 128732); (128749, 128751); (128765, 128767);
   (128884, 128895); (128985, 128991); (129004, 129007); (129009, 129023);
   (129036, 129039); (129096, 129103); (129114, 129119); (129160, 129167);
   (129198, 129199); (129202, 129279); (129620, 129631); (129646, 129647);
   (129653, 129655); (129661, 129663); (129671, 129679); (129709, 129711);
   (129723, 129727); (129734, 129743); (129754, 129759); (129768, 129775);
   (129783, 129791); (129939, 129939); (129995, 130031); (130042, 131071);
   (173792, 173823); (177977, 177983); (178206, 178207); (183970, 183983);
   (191457, 194559); (195102, 196607); (201547, 917759); (918000, 1114111)]%N.

Definition unprintable (cp : N) : bool :=
  existsb (fun r => N.leb (fst r) cp && N.leb cp (snd r)) unprintable_ranges.

Fixpoint hex_N (digits : nat) (n : N) : string :=
  match digits with
  | 0 => EmptyString
  | S d =>
      (hex_N d (N.div n 16)
       ++ String (hex_digit (N.to_nat (N.modulo n 16))) EmptyString)%string
  end.

(** A code point from 128 on, given with its bytes: escaped when it is not
    printable, written as it is otherwise. *)
Definition render_code_point (cp : N) (bytes : string) : string :=
  if unprintable cp then
    if N.ltb cp 256 then String backslash (String "x" (hex_N 2 cp))
    else if N.ltb cp 65536 then String backslash (String "u" (hex_N 4 cp))
    else String backslash (String "U" (hex_N 8 cp))
  else bytes.

(** The six low bits of a continuation byte of UTF-8. *)
Definition continuation (c : ascii) : option N :=
  let n := N_of_ascii c in
  if N.leb 128 n && N.ltb n 192 then Some (N.sub n 128) else None.

Fixpoint escape (q : ascii) (s : string) : string :=
  match s with
  | EmptyString => EmptyString
  | String c s1 =>
      let n := N_of_ascii c in
      let kept := String c (escape q s1) in
      if N.ltb n 128 then (escape_char q c ++ escape q s1)%string
      else if N.ltb n 192 then kept
      else
        match s1 with
        | EmptyString => kept
        | String c1 s2 =>
            match continuation c1 with
            | None => kept
            | Some n1 =>
                if N.ltb n 224 then
                  (render_code_point (N.add (N.mul (N.sub n 192) 64) n1)
                     (String c (String c1 EmptyString))
                   ++ escape q s2)%string
                else
                  match s2 with
                  | EmptyString => kept
                  | String c2 s3 =>
                      match continuation c2 with
                      | None => kept
                      | Some n2 =>
                          if N.ltb n 240 then
                            (render_code_point
                               (N.add (N.mul (N.add (N.mul (N.sub n 224) 64) n1)
                                             64) n2)
                               (String c (String c1 (String c2 EmptyString)))
                             ++ escape q s3)%string
                          else
                            match s3 with
                            | EmptyString => kept
                            | String c3 s4 =>
                                match continuation c3 with
                                | None => kept
                                | Some n3 =>
                                    if N.ltb n 248 then
                                      (render_code_point
                                         (N.add (N.mul (N.add (N.mul (N.add
                                            (N.mul (N.sub n 240) 64) n1) 64) n2)
                                            64) n3)
                                         (String c (String c1 (String c2
                                            (String c3 EmptyString))))
                                       ++ escape q s4)%string
                                    else kept
                                end
                            end
                      end
                  end
            end
        end
  end.

Definition py_repr (s : string) : string :=
  let q := if has_char squote s && negb (has_char dquote s)
           then dquote else squote in
  String q (escape q s ++ String q EmptyString)%string.

Definition py_str_list (l : list string) : string :=
  ("[" ++ String.concat ", " (map py_repr l) ++ "]")%string.

(** ** Call-graph exploration *)

(** [[ir.function for ir in calls if isinstance(ir.function, Function)]] *)
Definition called_functions (calls : list InternalCall.t) : list nat :=
  flat_map (fun ir => match InternalCall.function ir with
                      | FunctionRef g => [g]
                      | NotAFunction _ => []
                      end) calls.

(** [[m for m in modifiers if isinstance(m, Function)]] *)
Definition modifier_functions (mods : list Callee) : list nat :=
  flat_map (fun m => match m with
                     | FunctionRef g => [g]
                     | NotAFunction _ => []
                     end) mods.

(** The functions that the body of [f] calls: its internal-call edges. *)
Definition callees (pm : Program) (f : nat) : list nat :=
  called_functions (Function.internal_calls (fn pm f)).

Definition mem (f : nat) (l : list nat) : bool := existsb (Nat.eqb f) l.

(** Modelled from the spec: [Function.all_internal_calls], the transitive
    version of [internal_calls], is a method of the repository's [Function]
    class and is not part of the printer's file.  The spec describes the
    closure as the functions transitively reached through the internal-call
    edges of the function (the calls of its modifiers are not followed),
    computed with a visited set and never by unguarded recursion, a target
    that is not a function being skipped.  [explore] is that work-list
    traversal: [to_explore] is the work list, [explored] the visited set in
    the order of the visits; [None] stands for a traversal that has not ended
    within [fuel] steps. *)
Fixpoint explore (pm : Program) (fuel : nat) (to_explore explored : list nat)
  : option (list nat) :=
  match to_explore with
  | [] => Some explored
  | f :: rest =>
      match fuel with
      | 0 => None
      | S fuel' =>
          if mem f explored
          then explore pm fuel' rest explored
          else explore pm fuel' (rest ++ callees pm f) (explored ++ [f])
      end
  end.

(** One step for the function itself and one for every call edge of the
    program. *)
Definition explore_fuel (pm : Program) : nat :=
  1 + list_sum (map (fun f => length (callees pm f)) (seq 0 (length pm))).

Definition explore_functions (pm : Program) (function : nat) : option (list nat) :=
  explore pm (explore_fuel pm) [function] [].

(** Modelled from the spec: the call operations of every function reached,
    the function itself included. *)
Definition all_internal_calls (pm : Program) (function : nat)
  : option (list InternalCall.t) :=
  option_map (flat_map (fun g => Function.internal_calls (fn pm g)))
             (explore_functions pm function).

(** ** [get_msg_sender_checks] *)

(** The list [all_functions] of the source, given the value [calls] that
    [function.all_internal_calls()] returned. *)
Definition all_functions (pm : Program) (calls : list InternalCall.t)
    (function : nat) : list nat :=
  called_functions calls
  ++ [function]
  ++ modifier_functions (Function.modifiers (fn pm function)).

Definition all_nodes (pm : Program) (fs : list nat) : list Node.t :=
  let all_nodes_ := map (fun f => Function.nodes (fn pm f)) fs in
  concat all_nodes_.

(** [n.contains_if() or n.contains_require_or_assert()] *)
Definition is_conditional (n : Node.t) : bool :=
  Node.contains_if n || Node.contains_require_or_assert n.

(** ["msg.sender" in [v.name for v in n.solidity_variables_read]] *)
Definition reads_msg_sender (n : Node.t) : bool :=
  str_in "msg.sender" (map SolidityVariable.name (Node.solidity_variables_read n)).

(** Lines 36 to 44 of the source, on the flattened list of nodes. *)
Definition conditions_of_nodes (nodes : list Node.t) : list string :=
  let all_conditional_nodes := filter is_conditional nodes in
  let all_conditional_nodes_on_msg_sender :=
    map Node.expression (filter reads_msg_sender all_conditional_nodes) in
  all_conditional_nodes_on_msg_sender.

(** Lines 33 to 44, on the list of functions collected. *)
Definition conditions_on_msg_sender (pm : Program) (fs : list nat) : list string :=
  conditions_of_nodes (all_nodes pm fs).

(** The body of [get_msg_sender_checks] once [function.all_internal_calls()]
    has returned [calls]. *)
Definition msg_sender_checks (pm : Program) (calls : list InternalCall.t)
    (function : nat) : list string :=
  conditions_on_msg_sender pm (all_functions pm calls function).

Definition get_msg_sender_checks (pm : Program) (function : nat)
  : option (list string) :=
  option_map (fun calls => msg_sender_checks pm calls function)
             (all_internal_calls pm function).

(** The closure of a function: the list [all_functions] that
    [get_msg_sender_checks] builds. *)
Definition closure (pm : Program) (function : nat) : option (list nat) :=
  option_map (fun calls => all_functions pm calls function)
             (all_internal_calls pm function).

(** ** The rows built by [output] *)

(** [[v.name for v in vars if v.name]]: [None] and the empty string are
    false. *)
Definition written_names (vars : list StateVariable.t) : list string :=
  flat_map (fun v => match StateVariable.name v with
                     | Some s => if String.eqb s EmptyString then [] else [s]
                     | None => []
                     end) vars.

(** The row of a state variable (lines 112 to 122); a cell is a Python
    object, [None] for Python's [None]. *)
Definition state_var_row (state_var : StateVariable.t) : list (option string) :=
  let var_type :=
    match StateVariable.type state_var with
    | Some t => t
    | None => "Unknown"
    end in
  let visibility :=
    match StateVariable.visibility state_var with
    | Some v => v
    | None => Some "Unknown"
    end in
  let location :=
    match StateVariable.location state_var with
    | Some (Some l) => if String.eqb l EmptyString then "default" else l
    | Some None => "default"
    | None => "default"
    end in
  [StateVariable.name state_var; Some var_type; visibility; Some location].

(** [sorted(state_variables_written)] and [sorted(msg_sender_condition)]. *)
Definition writes (pm : Program) (function : nat) : list string :=
  sorted (written_names (Function.all_state_variables_written (fn pm function))).

Definition guards (pm : Program) (function : nat) : option (list string) :=
  option_map sorted (get_msg_sender_checks pm function).

(** The row of a function (lines 138 to 147). *)
Definition function_row (pm : Program) (function : nat) : option (list string) :=
  let state_variables_written :=
    written_names (Function.all_state_variables_written (fn pm function)) in
  match get_msg_sender_checks pm function with
  | Some msg_sender_condition =>
      Some [Function.name (fn pm function);
            py_str_list (sorted state_variables_written);
            py_str_list (sorted msg_sender_condition)]
  | None => None
  end.

Fixpoint all_rows (rows : list (option (list string))) : option (list (list string)) :=
  match rows with
  | [] => Some []
  | None :: _ => None
  | Some r :: rest =>
      match all_rows rest with
      | Some rs => Some (r :: rs)
      | None => None
      end
  end.

(** One entry of [export_data]: the name of the contract, its state-variable
    rows and its function rows. *)
Definition state_vars_data (contract : Contract.t) : list (list (option string)) :=
  map state_var_row (Contract.state_variables contract).

Definition contract_export (pm : Program) (contract : Contract.t)
  : option (string * list (list (option string)) * list (list string)) :=
  match all_rows (map (function_row pm) (Contract.functions contract)) with
  | Some functions_data =>
      Some (Contract.name contract, state_vars_data contract, functions_data)
  | None => None
  end.

(** ** The call graph *)

(** [calls pm a b]: an internal-call operation of the body of [a] has the
    function [b] for its target; [reaches] is one call or more. *)
Definition calls (pm : Program) (a b : nat) : Prop :=
  exists ir, In ir (Function.internal_calls (fn pm a))
             /\ InternalCall.function ir = FunctionRef b.

Definition reaches (pm : Program) : nat -> nat -> Prop := clos_trans nat (calls pm).

(** The calls that are still to be pushed on the work list: those of the
    functions of the arena that are not explored yet. *)
Definition pending (pm : Program) (explored : list nat) : nat :=
  list_sum (map (fun f => if mem f explored then 0 else length (callees pm f))
                (seq 0 (length pm))).

(** ** Vocabulary of the properties *)

(** A node that guards on the identity of the caller, in the words of the
    spec: a conditional node (an [if], or a [require] or [assert]) whose
    solidity variables read include [msg.sender]. *)
Definition identity_gated (n : Node.t) : Prop :=
  (Node.contains_if n = true \/ Node.contains_require_or_assert n = true)
  /\ exists v, In v (Node.solidity_variables_read n)
               /\ SolidityVariable.name v = "msg.sender".

(** What one node adds to the list of conditions. *)
Definition contribution (n : Node.t) : list string :=
  if is_conditional n && reads_msg_sender n then [Node.expression n] else [].

Definition is_function (c : Callee) : bool :=
  match c with
  | FunctionRef _ => true
  | NotAFunction _ => false
  end.

(** The function with the call targets and the modifiers that are not
    functions taken out, and the program with all of them taken out. *)
Definition drop_unresolved (f : Function.t) : Function.t :=
  {| Function.name := Function.name f;
     Function.internal_calls :=
       filter (fun ir => is_function (InternalCall.function ir))
              (Function.internal_calls f);
     Function.modifiers := filter is_function (Function.modifiers f);
     Function.nodes := Function.nodes f;
     Function.all_state_variables_written :=
       Function.all_state_variables_written f |}.

Definition resolved_program (pm : Program) : Program := map drop_unresolved pm.

(** ** Sample programs *)

Definition msg_sender : SolidityVariable.t := {| SolidityVariable.name := "msg.sender" |}.

Definition require_node (vars : list SolidityVariable.t) (text : string) : Node.t :=
  {| Node.contains_if := false; Node.contains_require_or_assert := true;
     Node.solidity_variables_read := vars; Node.expression := text |}.

Definition call (g : nat) : InternalCall.t := {| InternalCall.function := FunctionRef g |}.

Definition named (n : string) (ty : string) : StateVariable.t :=
  {| StateVariable.name := Some n; StateVariable.type := Some ty;
     StateVariable.visibility := Some (Some "public");
     StateVariable.location := Some None |}.

(** The [Vault] of the spec: [withdraw] calls [_check] and writes [balance];
    [donate] writes [balance]. *)
Definition vault : Program :=
  [ {| Function.name := "withdraw"; Function.internal_calls := [call 1];
       Function.modifiers := []; Function.nodes := [];
       Function.all_state_variables_written := [named "balance" "uint256"] |};
    {| Function.name := "_check"; Function.internal_calls := [];
       Function.modifiers := [];
       Function.nodes := [require_node [msg_sender] "require(bool)(msg.sender == owner)"];
       Function.all_state_variables_written := [] |};
    {| Function.name := "donate"; Function.internal_calls := [];
       Function.modifiers := []; Function.nodes := [];
       Function.all_state_variables_written := [named "balance" "uint256"] |} ].

Definition owner_check : string := "require(bool)(msg.sender == owner)".

(** [f] and [g] call each other; [f] checks the caller. *)
Definition mutual : Program :=
  [ {| Function.name := "f"; Function.internal_calls := [call 1];
       Function.modifiers := [];
       Function.nodes := [require_node [msg_sender] owner_check];
       Function.all_state_variables_written := [] |};
    {| Function.name := "g"; Function.internal_calls := [call 0];
       Function.modifiers := []; Function.nodes := [];
       Function.all_state_variables_written := [] |} ].

(** [setOwner] checks the caller and calls [_setOwner], which checks the
    caller again with the same expression. *)
Definition checked_twice : Program :=
  [ {| Function.name := "setOwner"; Function.internal_calls := [call 1];
       Function.modifiers := [];
       Function.nodes := [require_node [msg_sender] owner_check];
       Function.all_state_variables_written := [named "owner" "address"] |};
    {| Function.name := "_setOwner"; Function.internal_calls := [];
       Function.modifiers := [];
       Function.nodes := [require_node [msg_sender] owner_check];
       Function.all_state_variables_written := [named "owner" "address"] |} ].

(** [f] calls [g] and [h], which both call [k]; [k] checks the caller. *)
Definition diamond : Program :=
  [ {| Function.name := "f"; Function.internal_calls := [call 1; call 2];
       Function.modifiers := []; Function.nodes := [];
       Function.all_state_variables_written := [] |};
    {| Function.name := "g"; Function.internal_calls := [call 3];
       Function.modifiers := []; Function.nodes := [];
       Function.all_state_variables_written := [] |};
    {| Function.name := "h"; Function.internal_calls := [call 3];
       Function.modifiers := []; Function.nodes := [];
       Function.all_state_variables_written := [] |};
    {| Function.name := "k"; Function.internal_calls := [];
       Function.modifiers := [];
       Function.nodes := [require_node [msg_sender] owner_check];
       Function.all_state_variables_written := [] |} ].

(** [f] writes the variable [x] of its contract and the variable [x] of a
    base contract, which the first one shadows. *)
Definition shadowed : Program :=
  [ {| Function.name := "f"; Function.internal_calls := [];
       Function.modifiers := []; Function.nodes := [];
       Function.all_state_variables_written :=
         [named "x" "uint256"; named "x" "address"] |} ].

Definition anonymous : StateVariable.t :=
  {| StateVariable.name := None; StateVariable.type := None;
     StateVariable.visibility := None; StateVariable.location := None |}.

(** [f] writes a named variable and a location without a name; it has a
    modifier [onlyOwner], whose body calls [_audit], a call to the solidity
    function [require] and a base-constructor slot that is a contract. *)
Definition guarded : Program :=
  [ {| Function.name := "f";
       Function.internal_calls :=
         [ {| InternalCall.function := NotAFunction "require(bool)" |} ];
       Function.modifiers := [FunctionRef 1; NotAFunction "Base"];
       Function.nodes := [];
       Function.all_state_variables_written := [named "total" "uint256"; anonymous] |};
    {| Function.name := "onlyOwner"; Function.internal_calls := [call 2];
       Function.modifiers := [];
       Function.nodes := [require_node [msg_sender] owner_check];
       Function.all_state_variables_written := [] |};
    {| Function.name := "_audit"; Function.internal_calls := [];
       Function.modifiers := []; Function.nodes := [];
       Function.all_state_variables_written := [] |} ].

(** ** The export to Markdown *)

Definition pipe : ascii := ascii_of_nat 124.
Definition nl : string := String (ascii_of_nat 10) EmptyString.

(** [str(cell)] for a cell that is a string or [None]. *)
Definition py_str (cell : option string) : string :=
  match cell with
  | Some s => s
  | None => "None"
  end.

(** [s.replace('|', '\\|')]: the pattern is one character, so every
    occurrence of it is replaced, by a backslash and the character. *)
Fixpoint escape_pipes (s : string) : string :=
  match s with
  | EmptyString => EmptyString
  | String c s' =>
      if Ascii.eqb c pipe
      then String backslash (String pipe (escape_pipes s'))
      else String c (escape_pipes s')
  end.

(** The line of a row, once [str] is applied to its cells:
    ["| " + " | ".join(escaped_row) + " |\n"]. *)
Definition md_line (cells : list string) : string :=
  ("| " ++ String.concat " | " (map escape_pipes cells) ++ " |" ++ nl)%string.

Definition state_vars_header : string :=
  ("| Variable Name | Type | Visibility | Location |" ++ nl)%string.
Definition state_vars_rule : string :=
  ("|---------------|------|------------|----------|" ++ nl)%string.
Definition functions_header : string :=
  ("| Function | State Variables Written | Conditions on msg.sender |" ++ nl)%string.
Definition functions_rule : string :=
  ("|----------|------------------------|-------------------------|" ++ nl)%string.

(** What [_export_to_markdown] writes to the file of one contract. *)
Definition markdown_document (contract_name : string)
    (state_vars_data : list (list (option string)))
    (functions_data : list (list string)) : string :=
  ("# Contract: " ++ contract_name ++ nl ++ nl
   ++ "## State Variables" ++ nl ++ nl
   ++ state_vars_header
   ++ state_vars_rule
   ++ String.concat EmptyString
        (map (fun row => md_line (map py_str row)) state_vars_data)
   ++ nl ++ "## Functions and State Variable Writes" ++ nl ++ nl
   ++ functions_header
   ++ functions_rule
   ++ String.concat EmptyString (map md_line functions_data))%string.

(** The cell separators of a line of a Markdown table: the pipes that no
    backslash escapes.  A backslash escapes the character after it, another
    backslash included; [escaped] tells that the character before does. *)
Fixpoint separators_from (escaped : bool) (s : string) : nat :=
  match s with
  | EmptyString => 0
  | String c s' =>
      if escaped then separators_from false s'
      else if Ascii.eqb c backslash then separators_from true s'
      else (if Ascii.eqb c pipe then 1 else 0) + separators_from false s'
  end.

Definition separators (s : string) : nat := separators_from false s.

(** Whether the last character of the text escapes the one that follows. *)
Fixpoint escapes_next (escaped : bool) (s : string) : bool :=
  match s with
  | EmptyString => escaped
  | String c s' =>
      if escaped then escapes_next false s'
      else escapes_next (Ascii.eqb c backslash) s'
  end.

(** The inverse of [escape_pipes]: a backslash before a pipe is dropped. *)
Fixpoint unescape_pipes (s : string) : string :=
  match s with
  | EmptyString => EmptyString
  | String c s' =>
      match s' with
      | String d s'' =>
          if Ascii.eqb c backslash && Ascii.eqb d pipe
          then String pipe (unescape_pipes s'')
          else String c (unescape_pipes s')
      | EmptyString => String c EmptyString
      end
  end.

(** ** The names of the exported files *)

Definition slash : ascii := ascii_of_nat 47.
Definition dot : ascii := ascii_of_nat 46.

(** [s.rfind(c)]: the last index of [c], [None] for Python's [-1]. *)
Fixpoint rfind (c : ascii) (s : string) : option nat :=
  match s with
  | EmptyString => None
  | String d s' =>
      match rfind c s' with
      | Some i => Some (S i)
      | None => if Ascii.eqb c d then Some 0 else None
      end
  end.

(** [s[i:]] *)
Fixpoint string_drop (i : nat) (s : string) : string :=
  match i, s with
  | 0, _ => s
  | S i', String _ s' => string_drop i' s'
  | S _, EmptyString => EmptyString
  end.

(** [os.path.basename] on a POSIX system: [p[p.rfind('/') + 1:]]. *)
Definition basename (p : string) : string :=
  let i := match rfind slash p with
           | Some k => S k
           | None => 0
           end in
  string_drop i p.

(** [os.path.splitext] on a POSIX system: the text is cut at its last dot
    when that dot comes after the last slash and a character that is not a
    dot stands between the two. *)
Definition splitext (p : string) : string * string :=
  let sepIndex := rfind slash p in
  let dotIndex := rfind dot p in
  match dotIndex with
  | None => (p, EmptyString)
  | Some d =>
      let filenameIndex := match sepIndex with
                           | Some k => S k
                           | None => 0
                           end in
      if Nat.leb filenameIndex d
         && existsb (fun c => negb (Ascii.eqb c dot))
              (list_ascii_of_string
                 (String.substring filenameIndex (d - filenameIndex) p))
      then (String.substring 0 d p, string_drop d p)
      else (p, EmptyString)
  end.

Definition starts_with (c : ascii) (s : string) : bool :=
  match s with
  | String d _ => Ascii.eqb c d
  | EmptyString => false
  end.

Fixpoint ends_with (c : ascii) (s : string) : bool :=
  match s with
  | EmptyString => false
  | String d EmptyString => Ascii.eqb c d
  | String _ s' => ends_with c s'
  end.

(** [os.path.join(a, b)] on a POSIX system. *)
Definition path_join (a b : string) : string :=
  if starts_with slash b then b
  else if String.eqb a EmptyString || ends_with slash a then (a ++ b)%string
  else (a ++ String slash b)%string.

Definition export_dir : string := "slither_export".

(** Lines 162 to 165 of [output]. *)
Definition base_name (_filename : string) : string :=
  if negb (String.eqb _filename EmptyString)
  then fst (splitext (basename _filename))
  else "slither_vars_and_auth".

(** The three files of a contract (lines 50, 58 and 70). *)
Definition state_vars_filename (filename_prefix contract_name : string) : string :=
  path_join export_dir
    (filename_prefix ++ "_" ++ contract_name ++ "_state_variables.csv")%string.

Definition functions_filename (filename_prefix contract_name : string) : string :=
  path_join export_dir
    (filename_prefix ++ "_" ++ contract_name ++ "_functions.csv")%string.

Definition md_filename (filename_prefix contract_name : string) : string :=
  path_join export_dir (filename_prefix ++ "_" ++ contract_name ++ ".md")%string.

(** [export_data], for all the contracts. *)
Fixpoint export_data (pm : Program) (contracts : list Contract.t)
  : option (list (string * list (list (option string)) * list (list string))) :=
  match contracts with
  | [] => Some []
  | contract :: rest =>
      match contract_export pm contract, export_data pm rest with
      | Some e, Some es => Some (e :: es)
      | _, _ => None
      end
  end.


(** The contract of the [vault] program. *)
Definition vault_contract : Contract.t :=
  {| Contract.name := "Vault";
     Contract.state_variables := [named "balance" "uint256"];
     Contract.functions := [0; 1; 2] |}.

(** * Properties *)

(** ** The order of strings and [sorted] *)

Section StringOrderFacts.

Lemma ascii_compare_refl (a : ascii) : Ascii.compare a a = Eq.
Proof. unfold Ascii.compare. apply N.compare_refl. Qed.

Lemma ascii_compare_lt_trans (a b c : ascii) :
  Ascii.compare a b = Lt -> Ascii.compare b c = Lt -> Ascii.compare a c = Lt.
Proof.
  unfold Ascii.compare. rewrite !N.compare_lt_iff. apply N.lt_trans.
Qed.

Lemma str_le_trans (a b c : string) : str_le a b -> str_le b c -> str_le a c.
Proof.
  unfold str_le, String.leb. revert b c.
  induction a as [|x a IH]; intros [|y b] [|z c]; simpl; try easy.
  destruct (Ascii.compare x y) eqn:Exy; try easy;
    destruct (Ascii.compare y z) eqn:Eyz; try easy.
  - apply Ascii.compare_eq_iff in Exy, Eyz. subst.
    rewrite ascii_compare_refl. apply IH.
  - apply Ascii.compare_eq_iff in Exy. subst. now rewrite Eyz.
  - apply Ascii.compare_eq_iff in Eyz. subst. now rewrite Exy.
  - now rewrite (ascii_compare_lt_trans _ _ _ Exy Eyz).
Qed.

Lemma str_le_antisym (a b : string) : str_le a b -> str_le b a -> a = b.
Proof. apply String.leb_antisym. Qed.

Lemma sorted_Sorted (l : list string) : Sorted str_le (sorted l).
Proof. exact (StringSort.Sorted_sort l). Qed.

Lemma sorted_Permutation (l : list string) : Permutation l (sorted l).
Proof. exact (StringSort.Permuted_sort l). Qed.

Lemma sorted_StronglySorted (l : list string) : StronglySorted str_le (sorted l).
Proof.
  apply Sorted_StronglySorted; [|apply sorted_Sorted].
  intros a b c. apply str_le_trans.
Qed.

(** A list has one sorted rearrangement only. *)
Lemma StronglySorted_unique (l1 l2 : list string) :
  StronglySorted str_le l1 -> StronglySorted str_le l2 ->
  Permutation l1 l2 -> l1 = l2.
Proof.
  revert l2. induction l1 as [|a l1 IH]; intros l2 S1 S2 P.
  - now apply Permutation_nil in P.
  - destruct l2 as [|b l2].
    + symmetry in P. now apply Permutation_nil in P.
    + apply StronglySorted_inv in S1 as [S1 H1].
      apply StronglySorted_inv in S2 as [S2 H2].
      assert (a = b) as ->.
      { assert (In a (b :: l2)) as [->|Ha]
            by (eapply Permutation_in; [exact P|now left]); [easy|].
        assert (In b (a :: l1)) as [->|Hb]
            by (eapply Permutation_in; [symmetry; exact P|now left]); [easy|].
        rewrite Forall_forall in H1, H2.
        apply str_le_antisym; auto. }
      f_equal. apply IH; auto. eapply Permutation_cons_inv; eauto.
Qed.

Lemma sorted_Permutation_eq (l1 l2 : list string) :
  Permutation l1 l2 -> sorted l1 = sorted l2.
Proof.
  intros P. apply StronglySorted_unique; try apply sorted_StronglySorted.
  rewrite <- (sorted_Permutation l1), <- (sorted_Permutation l2). exact P.
Qed.

Lemma sorted_In (l : list string) (x : string) : In x (sorted l) <-> In x l.
Proof.
  split; apply Permutation_in;
    [symmetry|]; apply sorted_Permutation.
Qed.

Lemma sorted_NoDup (l : list string) : NoDup (sorted l) <-> NoDup l.
Proof.
  split; apply Permutation_NoDup;
    [symmetry|]; apply sorted_Permutation.
Qed.

Lemma sorted_nil_iff (l : list string) : sorted l = [] <-> l = [].
Proof.
  split; intros H.
  - apply Permutation_nil. rewrite <- H. symmetry. apply sorted_Permutation.
  - now subst.
Qed.

End StringOrderFacts.

(** ** The traversal of the call graph *)

Section Exploration.

Variable pm : Program.

Lemma mem_In (f : nat) (l : list nat) : mem f l = true <-> In f l.
Proof.
  unfold mem. rewrite existsb_exists. split.
  - intros (x & Hx & E). apply Nat.eqb_eq in E. now subst.
  - intros H. exists f. split; [exact H|apply Nat.eqb_refl].
Qed.

Lemma mem_false (f : nat) (l : list nat) : mem f l = false <-> ~ In f l.
Proof.
  rewrite <- mem_In. destruct (mem f l); split; congruence.
Qed.

Lemma mem_snoc (i f : nat) (l : list nat) :
  mem i (l ++ [f]) = mem i l || Nat.eqb i f.
Proof. unfold mem. rewrite existsb_app. simpl. now rewrite orb_false_r. Qed.

Lemma fn_outside (f : nat) : length pm <= f -> fn pm f = Function.empty.
Proof. intros H. unfold fn. now apply nth_overflow. Qed.

Lemma callees_outside (f : nat) : length pm <= f -> callees pm f = [].
Proof. intros H. unfold callees. now rewrite fn_outside. Qed.

Lemma called_functions_app (l1 l2 : list InternalCall.t) :
  called_functions (l1 ++ l2) = called_functions l1 ++ called_functions l2.
Proof. apply flat_map_app. Qed.

Lemma called_functions_flat_map (fs : list nat) :
  called_functions (flat_map (fun g => Function.internal_calls (fn pm g)) fs)
  = flat_map (callees pm) fs.
Proof.
  induction fs as [|f fs IH]; simpl; [reflexivity|].
  now rewrite called_functions_app, IH.
Qed.

Lemma explore_nil (fuel : nat) (explored : list nat) :
  explore pm fuel [] explored = Some explored.
Proof. now destruct fuel. Qed.

(** *** Termination *)

Lemma weight_visit_other (explored : list nat) (f : nat) (l : list nat) :
  ~ In f l ->
  map (fun i => if mem i (explored ++ [f]) then 0 else length (callees pm i)) l
  = map (fun i => if mem i explored then 0 else length (callees pm i)) l.
Proof.
  intros H. apply map_ext_in. intros i Hi. rewrite mem_snoc.
  destruct (Nat.eqb_spec i f) as [->|_]; [contradiction|].
  now rewrite orb_false_r.
Qed.

Lemma weight_visit (explored : list nat) (f : nat) (l : list nat) :
  NoDup l -> In f l -> mem f explored = false ->
  list_sum (map (fun i => if mem i (explored ++ [f]) then 0
                          else length (callees pm i)) l)
  + length (callees pm f)
  = list_sum (map (fun i => if mem i explored then 0
                            else length (callees pm i)) l).
Proof.
  intros ND Hin Hf. induction l as [|i l IH]; [contradiction|].
  inversion ND as [|? ? Hi ND']; subst. simpl.
  destruct (Nat.eq_dec i f) as [->|Hne].
  - rewrite (weight_visit_other _ _ _ Hi), mem_snoc, Nat.eqb_refl, orb_true_r, Hf.
    lia.
  - destruct Hin as [->|Hin]; [contradiction|].
    specialize (IH ND' Hin). rewrite mem_snoc.
    destruct (Nat.eqb_spec i f) as [->|_]; [contradiction|].
    rewrite orb_false_r. lia.
Qed.

Lemma pending_visit (explored : list nat) (f : nat) :
  mem f explored = false ->
  pending pm (explored ++ [f]) + length (callees pm f) = pending pm explored.
Proof.
  intros Hf. unfold pending.
  destruct (Nat.lt_ge_cases f (length pm)) as [Hlt|Hge].
  - apply weight_visit; [apply seq_NoDup| |exact Hf].
    apply in_seq. lia.
  - rewrite (callees_outside _ Hge), Nat.add_0_r.
    f_equal. apply weight_visit_other. rewrite in_seq. lia.
Qed.

Lemma explore_fuel_pending : explore_fuel pm = 1 + pending pm [].
Proof. reflexivity. Qed.

(** Enough fuel: one step for each entry of the work list and each call
    still to be pushed. *)
Lemma explore_enough_fuel (fuel : nat) :
  forall to_explore explored,
    length to_explore + pending pm explored <= fuel ->
    exists r, explore pm fuel to_explore explored = Some r.
Proof.
  induction fuel as [|fuel IH]; intros [|f rest] explored H; simpl in *;
    try (eexists; reflexivity); try lia.
  destruct (mem f explored) eqn:Hf.
  - apply IH. lia.
  - apply IH. rewrite length_app.
    pose proof (pending_visit explored f Hf). lia.
Qed.

Lemma explore_functions_terminates (function : nat) :
  exists r, explore_functions pm function = Some r.
Proof.
  apply explore_enough_fuel. rewrite explore_fuel_pending. simpl. lia.
Qed.

(** The result does not depend on the fuel, once there is enough. *)
Lemma explore_fuel_irrelevant (fuel1 : nat) :
  forall fuel2 to_explore explored r1 r2,
    explore pm fuel1 to_explore explored = Some r1 ->
    explore pm fuel2 to_explore explored = Some r2 ->
    r1 = r2.
Proof.
  induction fuel1 as [|fuel1 IH]; intros [|fuel2] [|f rest] explored r1 r2;
    simpl; try congruence.
  destruct (mem f explored); apply IH.
Qed.

End Exploration.

Section ExplorationCorrect.

Variable pm : Program.

(** *** What the traversal visits *)

(** The comprehension keeps the targets that are functions, all of them. *)
Lemma called_functions_In (cs : list InternalCall.t) (g : nat) :
  In g (called_functions cs) <->
  exists ir, In ir cs /\ InternalCall.function ir = FunctionRef g.
Proof.
  unfold called_functions. rewrite in_flat_map. split.
  - intros (ir & Hir & Hg). exists ir. split; [exact Hir|].
    destruct (InternalCall.function ir) as [h|w]; [|contradiction].
    destruct Hg as [->|[]]. reflexivity.
  - intros (ir & Hir & E). exists ir. split; [exact Hir|]. rewrite E. now left.
Qed.

Lemma callees_calls (a b : nat) : In b (callees pm a) <-> calls pm a b.
Proof. apply called_functions_In. Qed.

Lemma explore_sound (fuel : nat) :
  forall to_explore explored r,
    explore pm fuel to_explore explored = Some r ->
    forall x, In x r ->
      In x explored
      \/ exists w, In w to_explore /\ clos_refl_trans nat (calls pm) w x.
Proof.
  induction fuel as [|fuel IH]; intros [|f rest] explored r; simpl;
    try discriminate.
  - intros [= <-] x Hx. now left.
  - intros [= <-] x Hx. now left.
  - destruct (mem f explored) eqn:Hf; intros E x Hx.
    + destruct (IH _ _ _ E x Hx) as [H|(w & Hw & R)]; [now left|].
      right. exists w. split; [now right|exact R].
    + destruct (IH _ _ _ E x Hx) as [H|(w & Hw & R)].
      * apply in_app_or in H as [H|[<-|[]]]; [now left|].
        right. exists f. split; [now left|apply rt_refl].
      * right. apply in_app_or in Hw as [Hw|Hw].
        -- exists w. split; [now right|exact R].
        -- exists f. split; [now left|].
           eapply rt_trans; [apply rt_step, callees_calls; exact Hw|exact R].
Qed.

Lemma explore_incl (fuel : nat) :
  forall to_explore explored r,
    explore pm fuel to_explore explored = Some r ->
    incl explored r /\ incl to_explore r.
Proof.
  induction fuel as [|fuel IH]; intros [|f rest] explored r; simpl;
    try discriminate.
  - intros [= <-]. split; [apply incl_refl|easy].
  - intros [= <-]. split; [apply incl_refl|easy].
  - destruct (mem f explored) eqn:Hf; intros E;
      destruct (IH _ _ _ E) as [H1 H2]; split.
    + exact H1.
    + intros x [<-|Hx]; [apply H1; now apply mem_In|now apply H2].
    + intros x Hx. apply H1, in_or_app. now left.
    + intros x [<-|Hx].
      * apply H1, in_or_app. right. now left.
      * apply H2, in_or_app. now left.
Qed.

Lemma explore_closed (fuel : nat) :
  forall to_explore explored r,
    explore pm fuel to_explore explored = Some r ->
    (forall v g, In v explored -> calls pm v g ->
                 In g explored \/ In g to_explore) ->
    forall v g, In v r -> calls pm v g -> In g r.
Proof.
  induction fuel as [|fuel IH]; intros [|f rest] explored r; simpl;
    try discriminate.
  - intros [= <-] Inv v g Hv Hc. destruct (Inv v g Hv Hc) as [H|[]]; exact H.
  - intros [= <-] Inv v g Hv Hc. destruct (Inv v g Hv Hc) as [H|[]]; exact H.
  - destruct (mem f explored) eqn:Hf; intros E Inv; apply (IH _ _ _ E).
    + intros v g Hv Hc. destruct (Inv v g Hv Hc) as [H|[<-|H]]; auto.
      left. now apply mem_In.
    + intros v g Hv Hc. apply in_app_or in Hv as [Hv|[<-|[]]].
      * destruct (Inv v g Hv Hc) as [H|[<-|H]].
        -- left. apply in_or_app. now left.
        -- left. apply in_or_app. right. now left.
        -- right. apply in_or_app. now left.
      * right. apply in_or_app. right. now apply callees_calls.
Qed.

Lemma explore_NoDup (fuel : nat) :
  forall to_explore explored r,
    explore pm fuel to_explore explored = Some r ->
    NoDup explored -> NoDup r.
Proof.
  induction fuel as [|fuel IH]; intros [|f rest] explored r; simpl;
    try discriminate; try (intros [= <-]; trivial).
  destruct (mem f explored) eqn:Hf; intros E ND; apply (IH _ _ _ E); auto.
  apply NoDup_app; repeat split; auto.
  - constructor; [easy|constructor].
  - intros x Hx [<-|[]]. apply mem_false in Hf. contradiction.
Qed.

(** The traversal visits the functions that the function reaches in zero
    or more calls, each once. *)
Lemma explore_functions_reach (function : nat) (r : list nat) :
  explore_functions pm function = Some r ->
  NoDup r /\ forall x, In x r <-> clos_refl_trans nat (calls pm) function x.
Proof.
  intros E. split; [eapply explore_NoDup; [exact E|constructor]|].
  intros x. split.
  - intros Hx. destruct (explore_sound _ _ _ _ E x Hx) as [[]|(w & [<-|[]] & R)].
    exact R.
  - intros R. apply clos_rt_rtn1 in R. induction R as [|y z Hyz _ IH].
    + apply (explore_incl _ _ _ _ E). now left.
    + eapply explore_closed; [exact E| |exact IH|exact Hyz].
      intros v g [].
Qed.

Lemma reaches_last (a c : nat) :
  reaches pm a c <->
  exists b, clos_refl_trans nat (calls pm) a b /\ calls pm b c.
Proof.
  split.
  - intros R. apply clos_trans_tn1 in R. induction R as [c H|c d H R IH].
    + exists a. split; [apply rt_refl|exact H].
    + exists c. split; [|exact H].
      apply clos_tn1_trans in R. now apply clos_t_clos_rt.
  - intros (b & R & H). eapply clos_rt_t; [exact R|now apply t_step].
Qed.

(** The functions called by the operations that [all_internal_calls]
    returns: those reached in one call or more. *)
Lemma all_internal_calls_reach (function : nat) :
  exists cs, all_internal_calls pm function = Some cs
    /\ forall g, In g (called_functions cs) <-> reaches pm function g.
Proof.
  unfold all_internal_calls.
  destruct (explore_functions_terminates pm function) as [r E].
  rewrite E. simpl. eexists. split; [reflexivity|].
  intros g. rewrite called_functions_flat_map, in_flat_map, reaches_last.
  destruct (explore_functions_reach _ _ E) as [_ Hr].
  split; intros (b & Hb & Hc); exists b; split;
    try (now apply Hr); now apply callees_calls.
Qed.

End ExplorationCorrect.

(** ** The conditions collected from the nodes *)

Section Conditions.

Lemma conditions_of_nodes_app (l1 l2 : list Node.t) :
  conditions_of_nodes (l1 ++ l2) = conditions_of_nodes l1 ++ conditions_of_nodes l2.
Proof.
  unfold conditions_of_nodes. now rewrite !filter_app, map_app.
Qed.

Lemma conditions_of_nodes_cons (n : Node.t) (l : list Node.t) :
  conditions_of_nodes (n :: l) = contribution n ++ conditions_of_nodes l.
Proof.
  unfold conditions_of_nodes, contribution. simpl.
  destruct (is_conditional n); simpl; [|reflexivity].
  destruct (reads_msg_sender n); reflexivity.
Qed.

Lemma conditions_of_nodes_contribution (l : list Node.t) :
  conditions_of_nodes l = flat_map contribution l.
Proof.
  induction l as [|n l IH]; [reflexivity|].
  rewrite conditions_of_nodes_cons, IH. reflexivity.
Qed.

Lemma all_nodes_app (pm : Program) (l1 l2 : list nat) :
  all_nodes pm (l1 ++ l2) = all_nodes pm l1 ++ all_nodes pm l2.
Proof. unfold all_nodes. now rewrite map_app, concat_app. Qed.

Lemma conditions_on_msg_sender_app (pm : Program) (l1 l2 : list nat) :
  conditions_on_msg_sender pm (l1 ++ l2)
  = conditions_on_msg_sender pm l1 ++ conditions_on_msg_sender pm l2.
Proof.
  unfold conditions_on_msg_sender.
  now rewrite all_nodes_app, conditions_of_nodes_app.
Qed.

Lemma reads_msg_sender_iff (n : Node.t) :
  reads_msg_sender n = true <->
  exists v, In v (Node.solidity_variables_read n)
            /\ SolidityVariable.name v = "msg.sender".
Proof.
  unfold reads_msg_sender, str_in. rewrite existsb_exists. split.
  - intros (x & Hx & E). apply in_map_iff in Hx as (v & <- & Hv).
    apply String.eqb_eq in E. eauto.
  - intros (v & Hv & E). exists "msg.sender". split.
    + rewrite <- E. now apply in_map.
    + apply String.eqb_refl.
Qed.

Lemma identity_gated_iff (n : Node.t) :
  identity_gated n <-> is_conditional n && reads_msg_sender n = true.
Proof.
  unfold identity_gated, is_conditional.
  rewrite andb_true_iff, orb_true_iff, reads_msg_sender_iff. reflexivity.
Qed.

Lemma contribution_gated (n : Node.t) :
  identity_gated n -> contribution n = [Node.expression n].
Proof.
  intros H. apply identity_gated_iff in H. unfold contribution. now rewrite H.
Qed.

Lemma contribution_not_gated (n : Node.t) :
  ~ identity_gated n -> contribution n = [].
Proof.
  intros H. unfold contribution.
  destruct (is_conditional n && reads_msg_sender n) eqn:E; [|reflexivity].
  exfalso. now apply H, identity_gated_iff.
Qed.

Lemma conditions_of_nodes_nil (l : list Node.t) :
  (forall n, In n l -> ~ identity_gated n) -> conditions_of_nodes l = [].
Proof.
  intros H. rewrite conditions_of_nodes_contribution.
  induction l as [|n l IH]; [reflexivity|]. simpl.
  rewrite contribution_not_gated by (apply H; now left).
  apply IH. intros m Hm. apply H. now right.
Qed.

End Conditions.

(** ** Termination of the printer's functions *)

Lemma all_internal_calls_terminates (pm : Program) (function : nat) :
  exists cs, all_internal_calls pm function = Some cs.
Proof.
  destruct (all_internal_calls_reach pm function) as (cs & E & _). eauto.
Qed.

Lemma closure_terminates (pm : Program) (function : nat) :
  exists fs, closure pm function = Some fs
    /\ get_msg_sender_checks pm function = Some (conditions_on_msg_sender pm fs)
    /\ guards pm function = Some (sorted (conditions_on_msg_sender pm fs)).
Proof.
  destruct (all_internal_calls_terminates pm function) as (cs & E).
  unfold closure, guards, get_msg_sender_checks. rewrite E. simpl.
  eexists. repeat split.
Qed.

(** ** Guard sets: sorted, not deduplicated *)

(** C1, as the spec states it, fails: [setOwner] checks the caller and calls
    [_setOwner], whose check renders the same text; the sequence emitted for
    [setOwner] holds that text twice. *)
Lemma guards_checked_twice :
  guards checked_twice 0 = Some [owner_check; owner_check]
  /\ ~ NoDup [owner_check; owner_check].
Proof.
  split; [reflexivity|].
  intros H. inversion H as [|? ? Hn _]; subst. apply Hn. now left.
Qed.

(** The same happens with one node, when its function is called on two
    paths: [k] is listed once for the call in [g] and once for the call in
    [h]. *)
Example guards_diamond :
  closure diamond 0 = Some [1; 2; 3; 3; 0]
  /\ guards diamond 0 = Some [owner_check; owner_check].
Proof. split; reflexivity. Qed.

(** C1 (amended): the guard sequence emitted for a function is sorted, and
    it is a rearrangement of the texts contributed by the nodes of the
    functions collected, one entry for every conditional node that reads
    [msg.sender] and every occurrence of its function in the collected
    list.  Nothing is removed: the sequence is free of duplicates exactly
    when those texts are. *)
Theorem guards_sorted_not_deduplicated (pm : Program) (function : nat) :
  exists fs gs,
    closure pm function = Some fs
    /\ guards pm function = Some gs
    /\ Sorted str_le gs
    /\ Permutation (flat_map contribution (all_nodes pm fs)) gs
    /\ (forall t, count_occ string_dec gs t
                  = count_occ string_dec (flat_map contribution (all_nodes pm fs)) t)
    /\ (NoDup gs <-> NoDup (flat_map contribution (all_nodes pm fs))).
Proof.
  destruct (closure_terminates pm function) as (fs & Ec & _ & Eg).
  exists fs, (sorted (conditions_on_msg_sender pm fs)).
  unfold conditions_on_msg_sender in *.
  rewrite conditions_of_nodes_contribution in *.
  repeat split; auto.
  - apply sorted_Sorted.
  - apply sorted_Permutation.
  - intros t. apply Permutation_count_occ. symmetry. apply sorted_Permutation.
  - apply sorted_NoDup.
  - apply sorted_NoDup.
Qed.

(** ** Which nodes contribute *)

(** C4: in the flattened list of the nodes of the functions collected, a
    node adds its rendered expression to the conditions when it is
    conditional (an [if], or a [require] or [assert]) and reads
    [msg.sender], and adds nothing otherwise: not when it is conditional and
    reads other variables only, not when it reads [msg.sender] and is not
    conditional. *)
Theorem node_contributes_iff_identity_gated
    (pm : Program) (fs : list nat) (before after : list Node.t) (n : Node.t)
    (Hnodes : all_nodes pm fs = before ++ n :: after) :
  (identity_gated n ->
     conditions_on_msg_sender pm fs
     = conditions_of_nodes before ++ [Node.expression n] ++ conditions_of_nodes after)
  /\ (~ identity_gated n ->
     conditions_on_msg_sender pm fs
     = conditions_of_nodes before ++ conditions_of_nodes after)
  /\ (identity_gated n <->
       (Node.contains_if n || Node.contains_require_or_assert n = true
        /\ In "msg.sender"
              (map SolidityVariable.name (Node.solidity_variables_read n)))).
Proof.
  unfold conditions_on_msg_sender. rewrite Hnodes.
  rewrite conditions_of_nodes_app, conditions_of_nodes_cons.
  split; [|split; [|split]].
  - intros H. now rewrite contribution_gated.
  - intros H. now rewrite contribution_not_gated.
  - intros [H (v & Hv & E)]. split; [now apply orb_true_iff|].
    rewrite <- E. now apply in_map.
  - intros [H1 H2]. split; [now apply orb_true_iff|].
    apply in_map_iff in H2 as (v & E & Hv). eauto.
Qed.

Lemma node_contributes_witness :
  all_nodes vault [1; 0]
  = [] ++ require_node [msg_sender] "require(bool)(msg.sender == owner)" :: []
  /\ conditions_on_msg_sender vault [1; 0]
     = ["require(bool)(msg.sender == owner)"].
Proof.
  split; [reflexivity|].
  apply (proj1 (node_contributes_iff_identity_gated vault [1; 0] [] []
                  (require_node [msg_sender] "require(bool)(msg.sender == owner)")
                  eq_refl)).
  split; [now right|]. exists msg_sender. split; [now left|reflexivity].
Defined.

(** ** Write sets *)

Section WriteSets.

Lemma written_names_In (vars : list StateVariable.t) (s : string) :
  In s (written_names vars) <->
  s <> EmptyString /\ exists v, In v vars /\ StateVariable.name v = Some s.
Proof.
  unfold written_names. rewrite in_flat_map. split.
  - intros (v & Hv & Hs). destruct (StateVariable.name v) as [x|] eqn:E; [|easy].
    destruct (String.eqb_spec x EmptyString); [easy|].
    destruct Hs as [<-|[]]. split; [assumption|]. eauto.
  - intros (Hne & v & Hv & E). exists v. split; [exact Hv|]. rewrite E.
    destruct (String.eqb_spec s EmptyString); [contradiction|now left].
Qed.

Lemma written_names_unnamed (v : StateVariable.t) :
  StateVariable.name v = None \/ StateVariable.name v = Some EmptyString ->
  written_names [v] = [].
Proof. unfold written_names. simpl. now intros [-> | ->]. Qed.

Lemma written_names_named (v : StateVariable.t) (s : string) :
  StateVariable.name v = Some s -> s <> EmptyString -> written_names [v] = [s].
Proof.
  unfold written_names. simpl. intros -> H.
  now destruct (String.eqb_spec s EmptyString).
Qed.

Lemma written_names_app (l1 l2 : list StateVariable.t) :
  written_names (l1 ++ l2) = written_names l1 ++ written_names l2.
Proof. apply flat_map_app. Qed.

End WriteSets.

(** C5, as the spec states it, fails on the removal of duplicates: the names
    are filtered and sorted, and two variables of the same name (a variable
    and the one of a base contract that it shadows) give that name twice. *)
Lemma writes_shadowed :
  writes shadowed 0 = ["x"; "x"] /\ ~ NoDup (writes shadowed 0).
Proof.
  split; [reflexivity|].
  intros H. inversion H as [|? ? Hn _]; subst. apply Hn. now left.
Qed.

(** C5 (amended): the write sequence emitted for a function is the sorted
    sequence of the names of the variables that the transitive query of the
    program model returns, the variables without a name ([None] or the empty
    string) left out.  A name is in it when it is not empty and a variable
    returned has it; the printer removes no duplicate, so the sequence is
    free of duplicates exactly when the names kept are.  With one named
    variable and one without a name, the sequence is the one name. *)
Theorem writes_sorted_named (pm : Program) (function : nat) :
  let vars := Function.all_state_variables_written (fn pm function) in
  Sorted str_le (writes pm function)
  /\ Permutation (written_names vars) (writes pm function)
  /\ (forall s, In s (writes pm function) <->
                s <> EmptyString
                /\ exists v, In v vars /\ StateVariable.name v = Some s)
  /\ (NoDup (writes pm function) <-> NoDup (written_names vars))
  /\ (forall v u s,
        vars = [v; u] \/ vars = [u; v] ->
        StateVariable.name v = Some s -> s <> EmptyString ->
        StateVariable.name u = None \/ StateVariable.name u = Some EmptyString ->
        writes pm function = [s]).
Proof.
  intros vars. unfold writes. fold vars. split; [|split; [|split; [|split]]].
  - apply sorted_Sorted.
  - apply sorted_Permutation.
  - intros s. rewrite sorted_In. apply written_names_In.
  - apply sorted_NoDup.
  - intros v u s Hvars Hv Hs Hu.
    assert (written_names vars = [s]) as ->; [|reflexivity].
    destruct Hvars as [-> | ->].
    + change [v; u] with ([v] ++ [u]).
      now rewrite written_names_app, (written_names_named v s),
        (written_names_unnamed u).
    + change [u; v] with ([u] ++ [v]).
      now rewrite written_names_app, (written_names_named v s),
        (written_names_unnamed u).
Qed.

Lemma writes_sorted_named_witness :
  (Function.all_state_variables_written (fn guarded 0)
   = [named "total" "uint256"; anonymous])
  /\ StateVariable.name (named "total" "uint256") = Some "total"
  /\ "total" <> EmptyString
  /\ StateVariable.name anonymous = None
  /\ writes guarded 0 = ["total"].
Proof.
  split; [reflexivity|]. split; [reflexivity|]. split; [discriminate|].
  split; [reflexivity|].
  destruct (writes_sorted_named guarded 0) as (_ & _ & _ & _ & H).
  apply (H (named "total" "uint256") anonymous "total").
  - left. reflexivity.
  - reflexivity.
  - discriminate.
  - left. reflexivity.
Defined.

(** ** The closure *)

Section Closure.

Variable pm : Program.

Lemma modifier_functions_In (mods : list Callee) (g : nat) :
  In g (modifier_functions mods) <-> In (FunctionRef g) mods.
Proof.
  unfold modifier_functions. rewrite in_flat_map. split.
  - intros ([h|w] & Hm & Hg); [|easy]. destruct Hg as [<-|[]]. exact Hm.
  - intros H. exists (FunctionRef g). split; [exact H|now left].
Qed.

Lemma callees_nil_explore (function : nat) :
  callees pm function = [] -> explore_functions pm function = Some [function].
Proof.
  intros H. unfold explore_functions. rewrite explore_fuel_pending.
  cbn [explore mem existsb Nat.add app]. rewrite H. apply explore_nil.
Qed.

Lemma closure_unfold (function : nat) (r : list nat) :
  explore_functions pm function = Some r ->
  closure pm function
  = Some (flat_map (callees pm) r ++ [function]
          ++ modifier_functions (Function.modifiers (fn pm function))).
Proof.
  intros E. unfold closure, all_internal_calls. rewrite E. simpl.
  unfold all_functions. now rewrite called_functions_flat_map.
Qed.

End Closure.

(** C2: the closure of a function holds the function, the functions it
    reaches through one internal call or more, and the functions among its
    modifiers, and nothing else.  The calls of a modifier are not followed: a
    function that only a modifier calls is in none of the three. *)
Theorem closure_exact (pm : Program) (function : nat) :
  exists fs,
    closure pm function = Some fs
    /\ forall g, In g fs <->
         g = function
         \/ reaches pm function g
         \/ In (FunctionRef g) (Function.modifiers (fn pm function)).
Proof.
  destruct (all_internal_calls_reach pm function) as (cs & E & Hcs).
  unfold closure. rewrite E. simpl. eexists. split; [reflexivity|].
  intros g. unfold all_functions. rewrite !in_app_iff, Hcs, modifier_functions_In.
  simpl. intuition.
Qed.

Lemma closure_exact_witness :
  reaches diamond 0 3
  /\ (exists fs, closure diamond 0 = Some fs /\ In 3 fs)
  /\ ~ reaches guarded 0 2
  /\ (exists fs, closure guarded 0 = Some fs /\ In 1 fs /\ ~ In 2 fs).
Proof.
  assert (reaches diamond 0 3) as R03.
  { apply t_trans with 1; apply t_step.
    - exists (call 1). split; [now left|reflexivity].
    - exists (call 3). split; [now left|reflexivity]. }
  assert (~ reaches guarded 0 2) as N02.
  { intros R. apply clos_trans_t1n in R.
    assert (forall y, ~ calls guarded 0 y) as N.
    { intros y (ir & [<-|[]] & E). discriminate. }
    inversion R as [y H|y z H _]; exact (N _ H). }
  split; [exact R03|]. split; [|split; [exact N02|]].
  - destruct (closure_exact diamond 0) as (fs & E & H).
    exists fs. split; [exact E|]. apply H. right. now left.
  - destruct (closure_exact guarded 0) as (fs & E & H).
    exists fs. split; [exact E|]. split.
    + apply H. right. right. now left.
    + intros H2. apply H in H2 as [H2|[H2|[H2|[H2|[]]]]];
        [discriminate|contradiction|discriminate|discriminate].
Defined.

(** The modifier [onlyOwner] of [f] calls [_audit]: [_audit] is not in the
    closure of [f]. *)
Example closure_one_hop_modifier :
  closure guarded 0 = Some [0; 1] /\ callees guarded 1 = [2].
Proof. split; reflexivity. Qed.

(** C6: a function without internal calls and without modifiers has the
    closure that holds the function alone. *)
Theorem closure_no_calls_no_modifiers (pm : Program) (function : nat)
    (Hcalls : Function.internal_calls (fn pm function) = [])
    (Hmods : Function.modifiers (fn pm function) = []) :
  closure pm function = Some [function].
Proof.
  assert (callees pm function = []) as Hc by (unfold callees; now rewrite Hcalls).
  rewrite (closure_unfold pm function [function]) by now apply callees_nil_explore.
  simpl. now rewrite Hc, Hmods.
Qed.

Lemma closure_no_calls_no_modifiers_witness :
  Function.internal_calls (fn vault 2) = []
  /\ Function.modifiers (fn vault 2) = []
  /\ closure vault 2 = Some [2].
Proof.
  split; [reflexivity|]. split; [reflexivity|].
  apply (closure_no_calls_no_modifiers vault 2); reflexivity.
Defined.

(** ** Mutual recursion *)

Lemma explore_mutual (pm : Program) (f g : nat) :
  f <> g -> callees pm f = [g] -> callees pm g = [f] ->
  explore_functions pm f = Some [f; g].
Proof.
  intros Hne Hf Hg.
  destruct (explore_functions_terminates pm f) as [r E]. rewrite E. f_equal.
  apply (explore_fuel_irrelevant pm _ 3 _ _ _ _ E).
  cbn [explore mem existsb app]. rewrite Hf.
  cbn [explore mem existsb app].
  destruct (Nat.eqb_spec g f) as [->|_]; [contradiction|].
  cbn [orb]. rewrite Hg. cbn [explore mem existsb app].
  now rewrite Nat.eqb_refl.
Qed.

(** C3, as the spec states it, fails on "exactly once": in [mutual], [f]
    calls [g] and [g] calls [f]; the traversal ends and the closure of [f] is
    the set of [f] and [g], but [f] is listed twice, as the target of the call
    in [g] and as the function itself, and its one check is collected
    twice. *)
Lemma closure_mutual_lists_root_twice :
  closure mutual 0 = Some [1; 0; 0]
  /\ conditions_on_msg_sender mutual [0] = [owner_check]
  /\ get_msg_sender_checks mutual 0 = Some [owner_check; owner_check].
Proof. repeat split. Qed.

(** C3 (amended): when [f] calls [g] and [g] calls [f], and these are their
    only calls to functions, the computation of the closure of [f] ends, and
    the closure is the set of [f], [g] and the modifiers of [f].  The list
    collected is not deduplicated: it holds [g] once, for the call in [f],
    and [f] twice, for the call in [g] and for the function itself, so the
    conditions of [g] are collected once and those of [f] twice. *)
Theorem closure_mutual_recursion (pm : Program) (f g : nat)
    (Hne : f <> g)
    (Hf : callees pm f = [g])
    (Hg : callees pm g = [f]) :
  let ms := modifier_functions (Function.modifiers (fn pm f)) in
  closure pm f = Some ([g; f] ++ [f] ++ ms)
  /\ (forall x, In x ([g; f] ++ [f] ++ ms) <->
         x = f \/ x = g \/ In (FunctionRef x) (Function.modifiers (fn pm f)))
  /\ get_msg_sender_checks pm f
     = Some (conditions_on_msg_sender pm [g]
             ++ conditions_on_msg_sender pm [f]
             ++ conditions_on_msg_sender pm [f]
             ++ conditions_on_msg_sender pm ms).
Proof.
  intros ms.
  assert (closure pm f = Some ([g; f] ++ [f] ++ ms)) as Ec.
  { rewrite (closure_unfold pm f [f; g]) by now apply explore_mutual.
    cbn [flat_map]. now rewrite Hf, Hg. }
  split; [exact Ec|]. split.
  - intros x. unfold ms. rewrite !in_app_iff, modifier_functions_In. simpl.
    intuition.
  - destruct (closure_terminates pm f) as (fs & Ec' & Eg & _).
    rewrite Ec in Ec'. injection Ec' as <-. rewrite Eg. f_equal.
    change (g :: f :: f :: ms) with ([g] ++ [f] ++ [f] ++ ms).
    now rewrite !conditions_on_msg_sender_app.
Qed.

Lemma closure_mutual_recursion_witness :
  0 <> 1 /\ callees mutual 0 = [1] /\ callees mutual 1 = [0]
  /\ closure mutual 0 = Some [1; 0; 0].
Proof.
  split; [discriminate|]. split; [reflexivity|]. split; [reflexivity|].
  apply (closure_mutual_recursion mutual 0 1); [discriminate|reflexivity..].
Defined.

(** ** Targets that are not functions *)

Section Unresolved.

Variable pm : Program.

Lemma called_functions_resolved (cs : list InternalCall.t) :
  called_functions (filter (fun ir => is_function (InternalCall.function ir)) cs)
  = called_functions cs.
Proof.
  induction cs as [|[[g|w]] cs IH]; simpl; [reflexivity| |exact IH].
  unfold called_functions in *. simpl. now rewrite IH.
Qed.

Lemma modifier_functions_resolved (ms : list Callee) :
  modifier_functions (filter is_function ms) = modifier_functions ms.
Proof.
  induction ms as [|[g|w] ms IH]; simpl; [reflexivity| |exact IH].
  unfold modifier_functions in *. simpl. now rewrite IH.
Qed.

Lemma fn_resolved (f : nat) :
  fn (resolved_program pm) f = drop_unresolved (fn pm f).
Proof.
  unfold fn, resolved_program.
  change Function.empty with (drop_unresolved Function.empty) at 1.
  apply map_nth.
Qed.

Lemma callees_resolved (f : nat) :
  callees (resolved_program pm) f = callees pm f.
Proof.
  unfold callees. rewrite fn_resolved. apply called_functions_resolved.
Qed.

Lemma explore_resolved (fuel : nat) :
  forall to_explore explored,
    explore (resolved_program pm) fuel to_explore explored
    = explore pm fuel to_explore explored.
Proof.
  induction fuel as [|fuel IH]; intros [|f rest] explored; simpl; auto.
  rewrite callees_resolved, !IH. reflexivity.
Qed.

Lemma explore_functions_resolved (function : nat) :
  explore_functions (resolved_program pm) function
  = explore_functions pm function.
Proof.
  unfold explore_functions, explore_fuel, resolved_program.
  rewrite length_map. fold (resolved_program pm).
  rewrite (map_ext _ _ (fun f => f_equal (@length nat) (callees_resolved f))).
  apply explore_resolved.
Qed.

Lemma all_nodes_resolved (fs : list nat) :
  all_nodes (resolved_program pm) fs = all_nodes pm fs.
Proof.
  unfold all_nodes. f_equal. apply map_ext. intros f. now rewrite fn_resolved.
Qed.

Lemma closure_resolved (function : nat) :
  closure (resolved_program pm) function = closure pm function.
Proof.
  destruct (explore_functions_terminates pm function) as [r E].
  rewrite (closure_unfold pm function r E).
  rewrite (closure_unfold (resolved_program pm) function r)
    by now rewrite explore_functions_resolved.
  rewrite fn_resolved. simpl. rewrite modifier_functions_resolved.
  now rewrite (flat_map_ext _ _ callees_resolved).
Qed.

End Unresolved.

(** C7: a call target or a modifier that is not a function is left out of
    the closure and nothing else changes: an operation whose target is not a
    function adds nothing to the functions called, a modifier that is not a
    function adds nothing to the modifier functions, the computation ends
    with a closure (there is no error), and the closure and the conditions
    are those of the program in which these targets and modifiers are not
    there at all. *)
Theorem unresolved_targets_omitted (pm : Program) (function : nat) :
  (forall before after what,
      called_functions
        (before ++ {| InternalCall.function := NotAFunction what |} :: after)
      = called_functions (before ++ after))
  /\ (forall before after what,
      modifier_functions (before ++ NotAFunction what :: after)
      = modifier_functions (before ++ after))
  /\ (exists fs, closure pm function = Some fs)
  /\ closure pm function = closure (resolved_program pm) function
  /\ get_msg_sender_checks pm function
     = get_msg_sender_checks (resolved_program pm) function.
Proof.
  split; [|split; [|split; [|split]]].
  - intros before after what. unfold called_functions.
    now rewrite !flat_map_app.
  - intros before after what. unfold modifier_functions.
    now rewrite !flat_map_app.
  - destruct (closure_terminates pm function) as (fs & E & _). eauto.
  - symmetry. apply closure_resolved.
  - destruct (closure_terminates pm function) as (fs & E & Eg & _).
    destruct (closure_terminates (resolved_program pm) function)
      as (fs' & E' & Eg' & _).
    rewrite closure_resolved, E in E'. injection E' as <-.
    rewrite Eg, Eg'. unfold conditions_on_msg_sender.
    now rewrite all_nodes_resolved.
Qed.

(** In [guarded], [f] calls the solidity function [require] and has a
    contract among its modifiers: neither is in its closure. *)
Example closure_guarded_skips :
  closure guarded 0 = Some [0; 1]
  /\ closure (resolved_program guarded) 0 = Some [0; 1].
Proof. split; reflexivity. Qed.

(** ** Empty sets *)

(** C8: a function for which the program model reports no variable written,
    and whose closure has no conditional node that reads [msg.sender], gets a
    row of three cells, with the text of the empty list in the cell of the
    write set and in the cell of the guard set: both cells are there and
    neither is [None]. *)
Theorem empty_sets_are_explicit (pm : Program) (function : nat)
    (Hwrites : Function.all_state_variables_written (fn pm function) = [])
    (Hguards : forall fs, closure pm function = Some fs ->
               forall n, In n (all_nodes pm fs) -> ~ identity_gated n) :
  writes pm function = []
  /\ guards pm function = Some []
  /\ function_row pm function
     = Some [Function.name (fn pm function); "[]"; "[]"].
Proof.
  destruct (closure_terminates pm function) as (fs & Ec & Eg & Es).
  assert (conditions_on_msg_sender pm fs = []) as E
      by (apply conditions_of_nodes_nil, (Hguards fs Ec)).
  rewrite E in *. unfold writes, function_row. rewrite Hwrites, Eg.
  repeat split. exact Es.
Qed.

Lemma empty_sets_are_explicit_witness :
  Function.all_state_variables_written (fn guarded 2) = []
  /\ (forall fs, closure guarded 2 = Some fs ->
      forall n, In n (all_nodes guarded fs) -> ~ identity_gated n)
  /\ function_row guarded 2 = Some ["_audit"; "[]"; "[]"].
Proof.
  assert (forall fs, closure guarded 2 = Some fs ->
          forall n, In n (all_nodes guarded fs) -> ~ identity_gated n) as H.
  { intros fs E. injection E as <-. intros n []. }
  split; [reflexivity|]. split; [exact H|].
  apply (empty_sets_are_explicit guarded 2 eq_refl H).
Defined.

(** ** Determinism *)

Section Determinism.

Variable pm : Program.

Lemma called_functions_Permutation (cs cs' : list InternalCall.t) :
  Permutation cs cs' -> Permutation (called_functions cs) (called_functions cs').
Proof. apply Permutation_flat_map. Qed.

Lemma written_names_Permutation (vs vs' : list StateVariable.t) :
  Permutation vs vs' -> Permutation (written_names vs) (written_names vs').
Proof. apply Permutation_flat_map. Qed.

Lemma conditions_on_msg_sender_Permutation (fs fs' : list nat) :
  Permutation fs fs' ->
  Permutation (conditions_on_msg_sender pm fs) (conditions_on_msg_sender pm fs').
Proof.
  intros P. unfold conditions_on_msg_sender, all_nodes.
  rewrite !conditions_of_nodes_contribution, <- !flat_map_concat_map.
  now apply Permutation_flat_map, Permutation_flat_map.
Qed.

Lemma msg_sender_checks_Permutation (cs cs' : list InternalCall.t) (function : nat) :
  Permutation cs cs' ->
  Permutation (msg_sender_checks pm cs function) (msg_sender_checks pm cs' function).
Proof.
  intros P. apply conditions_on_msg_sender_Permutation.
  unfold all_functions. apply Permutation_app_tail.
  now apply called_functions_Permutation.
Qed.

End Determinism.

(** C9: the two sorted sequences of the record of a function are functions
    of the program model and of the function, and of nothing else; they do
    not even depend on the order in which the program model enumerates the
    answers of its two transitive queries: an invocation that receives the
    call operations and the variables written in another order computes the
    same write sequence and the same guard sequence. *)
Theorem record_is_deterministic (pm : Program) (function : nat)
    (calls calls' : list InternalCall.t) (vars' : list StateVariable.t)
    (Hcalls : all_internal_calls pm function = Some calls)
    (Pcalls : Permutation calls calls')
    (Pvars : Permutation (Function.all_state_variables_written (fn pm function))
                         vars') :
  writes pm function = sorted (written_names vars')
  /\ guards pm function = Some (sorted (msg_sender_checks pm calls' function))
  /\ (forall pm2 function2,
        pm2 = pm -> function2 = function ->
        writes pm2 function2 = writes pm function
        /\ guards pm2 function2 = guards pm function
        /\ function_row pm2 function2 = function_row pm function).
Proof.
  split; [|split].
  - unfold writes. now apply sorted_Permutation_eq, written_names_Permutation.
  - unfold guards, get_msg_sender_checks. rewrite Hcalls. simpl. f_equal.
    now apply sorted_Permutation_eq, msg_sender_checks_Permutation.
  - intros pm2 function2 -> ->. repeat split.
Qed.

Lemma record_is_deterministic_witness :
  all_internal_calls diamond 0 = Some [call 1; call 2; call 3; call 3]
  /\ Permutation [call 1; call 2; call 3; call 3] [call 3; call 3; call 2; call 1]
  /\ Permutation (Function.all_state_variables_written (fn shadowed 0))
                 [named "x" "address"; named "x" "uint256"]
  /\ guards diamond 0
     = Some (sorted (msg_sender_checks diamond
                       [call 3; call 3; call 2; call 1] 0))
  /\ writes shadowed 0
     = sorted (written_names [named "x" "address"; named "x" "uint256"]).
Proof.
  assert (Permutation [call 1; call 2; call 3; call 3]
                      [call 3; call 3; call 2; call 1]) as P.
  { exact (Permutation_rev [call 1; call 2; call 3; call 3]). }
  assert (Permutation (Function.all_state_variables_written (fn shadowed 0))
                      [named "x" "address"; named "x" "uint256"]) as Q
      by apply perm_swap.
  split; [reflexivity|]. split; [exact P|]. split; [exact Q|]. split.
  - exact (proj1 (proj2 (record_is_deterministic diamond 0 _ _ _ eq_refl P
                           (Permutation_refl _)))).
  - exact (proj1 (record_is_deterministic shadowed 0 [] [] _ eq_refl
                    (Permutation_refl _) Q)).
Defined.

(** ** The rows of the state variables *)




(** ** The scenario of the spec *)

(** [withdraw] calls [_check], which requires the caller to be the owner, and
    writes [balance]; [donate] writes [balance] and checks nothing. *)
Example vault_rows :
  function_row vault 0
  = Some ["withdraw"; "['balance']"; "['require(bool)(msg.sender == owner)']"]
  /\ function_row vault 2 = Some ["donate"; "['balance']"; "[]"]
  /\ closure vault 0 = Some [1; 0].
Proof. repeat split. Qed.

(** * Further properties of the printer *)

(** ** What a function's guard cell reports *)

Section GuardMembership.

Variable pm : Program.

Lemma all_nodes_In (fs : list nat) (n : Node.t) :
  In n (all_nodes pm fs) <-> exists g, In g fs /\ In n (Function.nodes (fn pm g)).
Proof.
  unfold all_nodes. rewrite <- flat_map_concat_map, in_flat_map. reflexivity.
Qed.

Lemma conditions_of_nodes_In (ns : list Node.t) (t : string) :
  In t (conditions_of_nodes ns) <->
  exists n, In n ns /\ identity_gated n /\ Node.expression n = t.
Proof.
  unfold conditions_of_nodes. rewrite in_map_iff. split.
  - intros (n & E & Hn). apply filter_In in Hn as [Hn Hr].
    apply filter_In in Hn as [Hn Hc]. exists n.
    split; [exact Hn|]. split; [|exact E].
    apply identity_gated_iff. now rewrite Hc, Hr.
  - intros (n & Hn & Hg & E). exists n. split; [exact E|].
    apply identity_gated_iff, andb_true_iff in Hg as [Hc Hr].
    apply filter_In. split; [|exact Hr]. apply filter_In. now split.
Qed.

(** The members of the list collected for a function. *)
Lemma closure_members (function : nat) :
  exists fs,
    closure pm function = Some fs
    /\ get_msg_sender_checks pm function = Some (conditions_on_msg_sender pm fs)
    /\ forall g, In g fs <->
         g = function
         \/ reaches pm function g
         \/ In (FunctionRef g) (Function.modifiers (fn pm function)).
Proof.
  destruct (all_internal_calls_reach pm function) as (cs & E & Hcs).
  unfold closure, get_msg_sender_checks. rewrite E. simpl.
  eexists. split; [reflexivity|]. split; [reflexivity|].
  intros g. unfold all_functions. rewrite !in_app_iff, Hcs, modifier_functions_In.
  simpl. intuition.
Qed.

End GuardMembership.

Lemma all_functions_In (pm : Program) (cs : list InternalCall.t)
    (function g : nat) :
  In g (all_functions pm cs function) <->
  g = function
  \/ (exists ir, In ir cs /\ InternalCall.function ir = FunctionRef g)
  \/ In (FunctionRef g) (Function.modifiers (fn pm function)).
Proof.
  unfold all_functions.
  rewrite !in_app_iff, called_functions_In, modifier_functions_In.
  simpl. intuition.
Qed.

Lemma msg_sender_checks_In (pm : Program) (cs : list InternalCall.t)
    (function : nat) (t : string) :
  In t (msg_sender_checks pm cs function) <->
  exists g n,
    (g = function
     \/ (exists ir, In ir cs /\ InternalCall.function ir = FunctionRef g)
     \/ In (FunctionRef g) (Function.modifiers (fn pm function)))
    /\ In n (Function.nodes (fn pm g))
    /\ identity_gated n
    /\ Node.expression n = t.
Proof.
  unfold msg_sender_checks, conditions_on_msg_sender.
  rewrite conditions_of_nodes_In. split.
  - intros (n & Hn & Hg & E). apply all_nodes_In in Hn as (g & Hgfs & Hn).
    exists g, n. split; [now apply all_functions_In|]. now split.
  - intros (g & n & Hg & Hn & Hi & E). exists n. split; [|now split].
    apply all_nodes_In. exists g. split; [now apply all_functions_In|exact Hn].
Qed.

(** X1: whatever call operations [function.all_internal_calls()] returns, a
    text is among the conditions reported for the function exactly when a
    conditional node that reads [msg.sender] renders it, in the function
    itself, in a function that is the target of one of these operations, or
    in a function among its modifiers. *)
Theorem guards_membership (pm : Program) (function : nat)
    (calls : list InternalCall.t) :
  (forall t,
     In t (sorted (msg_sender_checks pm calls function)) <->
     exists g n,
       (g = function
        \/ (exists ir, In ir calls /\ InternalCall.function ir = FunctionRef g)
        \/ In (FunctionRef g) (Function.modifiers (fn pm function)))
       /\ In n (Function.nodes (fn pm g))
       /\ identity_gated n
       /\ Node.expression n = t)
  /\ (all_internal_calls pm function = Some calls ->
      guards pm function = Some (sorted (msg_sender_checks pm calls function))).
Proof.
  split.
  - intros t. rewrite sorted_In. apply msg_sender_checks_In.
  - intros E. unfold guards, get_msg_sender_checks. now rewrite E.
Qed.

Lemma guards_membership_witness :
  all_internal_calls vault 0 = Some [call 1]
  /\ guards vault 0 = Some (sorted (msg_sender_checks vault [call 1] 0))
  /\ In "require(bool)(msg.sender == owner)"
        (sorted (msg_sender_checks vault [call 1] 0))
  /\ ~ In "require(bool)(msg.sender == owner)"
          (sorted (msg_sender_checks vault [] 0)).
Proof.
  destruct (guards_membership vault 0 [call 1]) as [Hin Hg].
  destruct (guards_membership vault 0 []) as [Hnil _].
  split; [reflexivity|]. split; [exact (Hg eq_refl)|]. split.
  - apply Hin.
    exists 1, (require_node [msg_sender] "require(bool)(msg.sender == owner)").
    split; [right; left; exists (call 1); split; [now left|reflexivity]|].
    split; [now left|]. split; [|reflexivity].
    split; [now right|]. exists msg_sender. split; [now left|reflexivity].
  - intros H. apply Hnil in H as (g & n & [->|[(ir & Hir & _)|Hm]] & Hn & _).
    + destruct Hn.
    + destruct Hir.
    + destruct Hm.
Defined.

(** ** Empty cells *)

Lemma py_repr_cons (s : string) : exists q r, py_repr s = String q r /\ q <> "]"%char.
Proof.
  unfold py_repr.
  destruct (has_char squote s && negb (has_char dquote s));
    eexists; eexists; (split; [reflexivity|discriminate]).
Qed.

Lemma py_str_list_nil_iff (l : list string) : py_str_list l = "[]" <-> l = [].
Proof.
  split; [|now intros ->].
  destruct l as [|x l]; [reflexivity|]. intros H. exfalso.
  unfold py_str_list in H. cbn [map] in H.
  destruct (py_repr_cons x) as (q & r & E & Hq). rewrite E in H.
  destruct l; cbn [map String.concat String.append] in H;
    injection H as H _; now apply Hq.
Qed.

(** X2: the guard cell of the row of a function is the text [[]] exactly
    when no conditional node reads [msg.sender] in the function, in the
    functions that are the targets of the call operations that
    [function.all_internal_calls()] returned, and in the functions among its
    modifiers. *)
Theorem guard_cell_empty_iff (pm : Program) (function : nat)
    (calls : list InternalCall.t)
    (Hcalls : all_internal_calls pm function = Some calls) :
  exists written checks,
    function_row pm function
    = Some [Function.name (fn pm function); written; checks]
    /\ (checks = "[]" <->
        forall g n,
          g = function
          \/ (exists ir, In ir calls /\ InternalCall.function ir = FunctionRef g)
          \/ In (FunctionRef g) (Function.modifiers (fn pm function)) ->
          In n (Function.nodes (fn pm g)) -> ~ identity_gated n).
Proof.
  unfold function_row, get_msg_sender_checks. rewrite Hcalls. simpl.
  do 2 eexists. split; [reflexivity|].
  rewrite py_str_list_nil_iff, sorted_nil_iff. split.
  - intros E g n Hg Hn Hi.
    assert (In (Node.expression n) (msg_sender_checks pm calls function)) as Hin.
    { apply msg_sender_checks_In. exists g, n. split; [exact Hg|]. now split. }
    rewrite E in Hin. exact Hin.
  - intros H. apply conditions_of_nodes_nil. intros n Hn.
    apply all_nodes_In in Hn as (g & Hg & Hn). apply (H g n); auto.
    now apply all_functions_In.
Qed.

Lemma guard_cell_empty_iff_witness :
  all_internal_calls vault 0 = Some [call 1]
  /\ (exists written checks,
        function_row vault 0 = Some ["withdraw"; written; checks]
        /\ checks <> "[]")
  /\ all_internal_calls vault 2 = Some []
  /\ function_row vault 2 = Some ["donate"; "['balance']"; "[]"].
Proof.
  split; [reflexivity|]. split; [|split; [reflexivity|]].
  - destruct (guard_cell_empty_iff vault 0 [call 1] eq_refl)
      as (w & c & E & H).
    exists w, c. split; [exact E|]. intros Hc.
    apply (proj1 H Hc 1
             (require_node [msg_sender] "require(bool)(msg.sender == owner)")).
    + right. left. exists (call 1). split; [now left|reflexivity].
    + now left.
    + split; [now right|]. exists msg_sender. split; [now left|reflexivity].
  - destruct (guard_cell_empty_iff vault 2 [] eq_refl) as (w & c & E & H).
    assert (c = "[]") as ->.
    { apply H. intros g n [->|[(ir & Hir & _)|Hm]] Hn.
      - destruct Hn.
      - destruct Hir.
      - destruct Hm. }
    pose proof E as E'. vm_compute in E'. injection E' as <-. exact E.
Defined.

Lemma written_names_nil_iff (vars : list StateVariable.t) :
  written_names vars = [] <->
  forall v, In v vars ->
    StateVariable.name v = None \/ StateVariable.name v = Some EmptyString.
Proof.
  induction vars as [|v vars IH]; [split; [intros _ v []|reflexivity]|].
  change (v :: vars) with ([v] ++ vars). rewrite written_names_app.
  split.
  - intros H. apply app_eq_nil in H as [Hv H]. intros u [<-|Hu].
    + unfold written_names in Hv. simpl in Hv.
      destruct (StateVariable.name v) as [x|]; [|now left].
      destruct (String.eqb_spec x EmptyString); [subst; now right|discriminate].
    + now apply IH.
  - intros H. rewrite written_names_unnamed by (apply H; now left).
    apply IH. intros u Hu. apply H. now right.
Qed.

(** X3: the cell of the variables written is the text [[]] exactly when
    every variable that the query of the program model returns is without a
    name ([None] or the empty string); no variable returned is one case. *)
Theorem written_cell_empty_iff (pm : Program) (function : nat) :
  exists written checks,
    function_row pm function
    = Some [Function.name (fn pm function); written; checks]
    /\ (written = "[]" <->
        forall v,
          In v (Function.all_state_variables_written (fn pm function)) ->
          StateVariable.name v = None
          \/ StateVariable.name v = Some EmptyString).
Proof.
  destruct (closure_members pm function) as (fs & _ & Eg & _).
  unfold function_row. rewrite Eg. do 2 eexists. split; [reflexivity|].
  rewrite py_str_list_nil_iff, sorted_nil_iff. apply written_names_nil_iff.
Qed.

(** ** The data handed to the exports *)

Lemma function_row_shape (pm : Program) (function : nat) :
  exists written checks,
    function_row pm function
    = Some [Function.name (fn pm function); written; checks].
Proof.
  destruct (closure_members pm function) as (fs & _ & Eg & _).
  unfold function_row. rewrite Eg. eauto.
Qed.

Lemma all_rows_function_rows (pm : Program) (fs : list nat) :
  exists rows,
    all_rows (map (function_row pm) fs) = Some rows
    /\ map (hd EmptyString) rows = map (fun f => Function.name (fn pm f)) fs
    /\ Forall (fun row => length row = 3) rows.
Proof.
  induction fs as [|f fs (rows & E & Hn & Hl)]; simpl.
  - exists []. repeat split. constructor.
  - destruct (function_row_shape pm f) as (w & c & Ef). rewrite Ef, E.
    eexists. split; [reflexivity|]. split.
    + simpl. now rewrite Hn.
    + constructor; [reflexivity|exact Hl].
Qed.

(** X4: [output] builds an entry of export data for every contract, in the
    order of the contracts; the entry of a contract has its name, one row of
    four cells for each of its state variables and one row of three cells
    for each of its functions, in their order, the name of the function
    first. *)
Theorem export_data_rows (pm : Program) (contracts : list Contract.t) :
  exists entries,
    export_data pm contracts = Some entries
    /\ length entries = length contracts
    /\ forall i contract,
         nth_error contracts i = Some contract ->
         exists functions_data,
           nth_error entries i
           = Some (Contract.name contract, state_vars_data contract, functions_data)
           /\ state_vars_data contract
              = map state_var_row (Contract.state_variables contract)
           /\ Forall (fun row => length row = 4) (state_vars_data contract)
           /\ map (hd EmptyString) functions_data
              = map (fun f => Function.name (fn pm f)) (Contract.functions contract)
           /\ Forall (fun row => length row = 3) functions_data.
Proof.
  induction contracts as [|c cs (es & E & Hlen & H)]; simpl.
  - exists []. repeat split. intros [|i] contract; discriminate.
  - destruct (all_rows_function_rows pm (Contract.functions c))
      as (rows & Er & Hn & Hl).
    unfold contract_export. rewrite Er, E. eexists. split; [reflexivity|].
    split; [simpl; now rewrite Hlen|].
    intros [|i] contract Hc; simpl in *.
    + injection Hc as <-. exists rows. repeat split; auto.
      apply Forall_forall. intros row Hrow. unfold state_vars_data in Hrow.
      apply in_map_iff in Hrow as (v & <- & _). reflexivity.
    + now apply H.
Qed.

Lemma export_data_rows_witness :
  nth_error [vault_contract] 0 = Some vault_contract
  /\ exists entries functions_data,
       export_data vault [vault_contract] = Some entries
       /\ nth_error entries 0
          = Some ("Vault", state_vars_data vault_contract, functions_data)
       /\ map (hd EmptyString) functions_data = ["withdraw"; "_check"; "donate"].
Proof.
  split; [reflexivity|].
  destruct (export_data_rows vault [vault_contract]) as (entries & E & _ & H).
  destruct (H 0 vault_contract eq_refl) as (fd & Hnth & _ & _ & Hn & _).
  exists entries, fd. split; [exact E|]. split; [exact Hnth|exact Hn].
Defined.

(** ** Strings *)

Section Strings.

Lemma append_assoc (a b c : string) : ((a ++ b) ++ c = a ++ (b ++ c))%string.
Proof. induction a as [|x a IH]; simpl; [reflexivity|now rewrite IH]. Qed.

Lemma length_append (a b : string) :
  String.length (a ++ b) = String.length a + String.length b.
Proof. induction a as [|x a IH]; simpl; [reflexivity|now rewrite IH]. Qed.

Lemma has_char_append (c : ascii) (a b : string) :
  has_char c (a ++ b) = has_char c a || has_char c b.
Proof.
  induction a as [|x a IH]; simpl; [reflexivity|].
  now rewrite IH, orb_assoc.
Qed.

(** Two texts that end with tails of one length have the same tail. *)
Lemma append_tail_eq (a b s t : string) :
  (a ++ s = b ++ t)%string -> String.length s = String.length t ->
  a = b /\ s = t.
Proof.
  revert b. induction a as [|x a IH]; intros [|y b] E L; simpl in E.
  - now split.
  - exfalso. apply (f_equal String.length) in E. simpl in E.
    rewrite length_append in E. lia.
  - exfalso. apply (f_equal String.length) in E. simpl in E.
    rewrite length_append in E. lia.
  - injection E as -> E. destruct (IH b E L) as [-> ->]. now split.
Qed.

Lemma append_inv_head (a s t : string) : (a ++ s = a ++ t)%string -> s = t.
Proof.
  induction a as [|x a IH]; simpl; [easy|]. intros E. injection E as E. auto.
Qed.

End Strings.

(** ** The cells of the Markdown tables *)

Section MarkdownCells.

Lemma escape_pipes_starts (s : string) :
  starts_with pipe (escape_pipes s) = false.
Proof.
  destruct s as [|c s]; [reflexivity|]. cbn [escape_pipes].
  destruct (Ascii.eqb_spec c pipe) as [->|H]; cbn [starts_with]; [reflexivity|].
  rewrite Ascii.eqb_sym. now apply Ascii.eqb_neq.
Qed.

Lemma unescape_pipes_cons (c : ascii) (e : string) :
  starts_with pipe e = false ->
  unescape_pipes (String c e) = String c (unescape_pipes e).
Proof.
  destruct e as [|d e]; [reflexivity|]. cbn [starts_with unescape_pipes].
  rewrite Ascii.eqb_sym. intros ->. now rewrite andb_false_r.
Qed.

Lemma unescape_escape_pipes (s : string) : unescape_pipes (escape_pipes s) = s.
Proof.
  induction s as [|c s IH]; [reflexivity|].
  cbn [escape_pipes].
  destruct (Ascii.eqb_spec c pipe) as [->|Hc].
  - cbn [unescape_pipes]. rewrite !Ascii.eqb_refl. cbn [andb]. now rewrite IH.
  - rewrite unescape_pipes_cons by apply escape_pipes_starts. now rewrite IH.
Qed.

Lemma escape_pipes_id (s : string) :
  has_char pipe s = false -> escape_pipes s = s.
Proof.
  induction s as [|c s IH]; [reflexivity|]. cbn [has_char escape_pipes].
  rewrite Ascii.eqb_sym. intros H. apply orb_false_iff in H as [Hc Hs].
  rewrite Hc. now rewrite IH.
Qed.

End MarkdownCells.

(** X5: the escaping of the cells of the Markdown tables loses nothing: the
    text of a cell is recovered from the escaped text by dropping the
    backslash before every pipe, so two different cells are never written as
    the same text; a cell without a pipe is written as it is. *)
Theorem escape_pipes_lossless :
  (forall s, unescape_pipes (escape_pipes s) = s)
  /\ (forall s t, escape_pipes s = escape_pipes t -> s = t)
  /\ (forall s, has_char pipe s = false -> escape_pipes s = s).
Proof.
  split; [exact unescape_escape_pipes|]. split; [|exact escape_pipes_id].
  intros s t E. rewrite <- (unescape_escape_pipes s), E.
  apply unescape_escape_pipes.
Qed.

Lemma escape_pipes_lossless_witness :
  has_char pipe "uint256" = false
  /\ escape_pipes "uint256" = "uint256"
  /\ (escape_pipes "a || b" = escape_pipes "a || b" -> "a || b" = "a || b")
  /\ unescape_pipes (escape_pipes "a || b") = "a || b".
Proof.
  destruct escape_pipes_lossless as (Hround & Hinj & Hid).
  assert (has_char pipe "uint256" = false) as H by (vm_compute; reflexivity).
  split; [exact H|]. split; [exact (Hid _ H)|].
  split; [exact (Hinj _ _)|exact (Hround _)].
Defined.

(** ** The lines of the Markdown tables *)

Section MarkdownLines.

Lemma separators_from_app (a b : string) :
  forall e, separators_from e (a ++ b)
            = separators_from e a + separators_from (escapes_next e a) b.
Proof.
  induction a as [|c a IH]; intros e; [reflexivity|].
  cbn [String.append separators_from escapes_next].
  destruct e; [apply IH|].
  destruct (Ascii.eqb c backslash); [apply IH|].
  rewrite IH. lia.
Qed.

Lemma escapes_next_app (a b : string) :
  forall e, escapes_next e (a ++ b) = escapes_next (escapes_next e a) b.
Proof.
  induction a as [|c a IH]; intros e; [reflexivity|].
  cbn [String.append escapes_next]. destruct e; apply IH.
Qed.

Lemma escape_pipes_clean (s : string) :
  has_char backslash s = false ->
  separators_from false (escape_pipes s) = 0
  /\ escapes_next false (escape_pipes s) = false.
Proof.
  induction s as [|c s IH]; [easy|]. cbn [has_char escape_pipes].
  rewrite Ascii.eqb_sym. intros H. apply orb_false_iff in H as [Hc Hs].
  destruct (IH Hs) as [IH1 IH2].
  destruct (Ascii.eqb_spec c pipe) as [->|Hp];
    cbn [separators_from escapes_next].
  - rewrite Ascii.eqb_refl. now split.
  - rewrite Hc. apply Ascii.eqb_neq in Hp. rewrite Hp. now split.
Qed.

Lemma joined_cells_separators (cells : list string) :
  Forall (fun c => has_char backslash c = false) cells ->
  cells <> [] ->
  separators_from false (String.concat " | " (map escape_pipes cells))
  = length cells - 1
  /\ escapes_next false (String.concat " | " (map escape_pipes cells)) = false.
Proof.
  induction cells as [|c cells IH]; [easy|]. intros F _.
  inversion F as [|? ? Hc F']; subst.
  destruct (escape_pipes_clean c Hc) as [H1 H2].
  destruct cells as [|d cells].
  - simpl. now split.
  - destruct (IH F') as [IH1 IH2]; [discriminate|].
    change (String.concat " | " (map escape_pipes (c :: d :: cells)))
      with (escape_pipes c
            ++ String " " (String pipe (String " "
                 (String.concat " | " (map escape_pipes (d :: cells))))))%string.
    remember (String.concat " | " (map escape_pipes (d :: cells))) as rest.
    rewrite separators_from_app, escapes_next_app, H1, H2.
    assert (separators_from false (String " " (String pipe (String " " rest)))
            = 1 + separators_from false rest) as -> by reflexivity.
    assert (escapes_next false (String " " (String pipe (String " " rest)))
            = escapes_next false rest) as -> by reflexivity.
    rewrite IH1, IH2. simpl. split; [lia|reflexivity].
Qed.

Lemma md_line_separators (cells : list string) :
  Forall (fun c => has_char backslash c = false) cells ->
  cells <> [] ->
  separators (md_line cells) = length cells + 1.
Proof.
  intros F Hne. destruct (joined_cells_separators cells F Hne) as [H1 H2].
  unfold separators, md_line.
  remember (String.concat " | " (map escape_pipes cells)) as body.
  change ("| " ++ body ++ " |" ++ nl)%string
    with (String "|" (String " " (body ++ " |" ++ nl)))%string.
  assert (forall x, separators_from false (String pipe (String " " x))
                    = 1 + separators_from false x) as -> by reflexivity.
  rewrite separators_from_app, H1, H2.
  assert (separators_from false (" |" ++ nl) = 1) as -> by reflexivity.
  destruct cells; [contradiction|]. simpl. lia.
Qed.

End MarkdownLines.

(** X6: in the Markdown file of a contract, the line of a row has as many
    cell separators as the header and the rule of its table (five for the
    state variables, four for the functions), whatever pipes its cells hold,
    provided no cell holds a backslash.  A separator is a pipe that no
    backslash escapes. *)
Theorem markdown_rows_match_headers :
  (separators state_vars_header = 5 /\ separators state_vars_rule = 5)
  /\ (separators functions_header = 4 /\ separators functions_rule = 4)
  /\ (forall state_var,
        Forall (fun c => has_char backslash c = false)
               (map py_str (state_var_row state_var)) ->
        separators (md_line (map py_str (state_var_row state_var))) = 5)
  /\ (forall pm function row,
        function_row pm function = Some row ->
        Forall (fun c => has_char backslash c = false) row ->
        separators (md_line row) = 4).
Proof.
  split; [split; vm_compute; reflexivity|].
  split; [split; vm_compute; reflexivity|]. split.
  - intros v F. rewrite md_line_separators; [reflexivity|exact F|discriminate].
  - intros pm f row E F.
    destruct (function_row_shape pm f) as (w & c & E'). rewrite E' in E.
    injection E as <-. rewrite md_line_separators; [reflexivity|exact F|discriminate].
Qed.

Lemma markdown_rows_match_headers_witness :
  function_row vault 0
  = Some ["withdraw"; "['balance']"; "['require(bool)(msg.sender == owner)']"]
  /\ Forall (fun c => has_char backslash c = false)
       ["withdraw"; "['balance']"; "['require(bool)(msg.sender == owner)']"]
  /\ Forall (fun c => has_char backslash c = false)
       (map py_str (state_var_row (named "a|b" "uint256")))
  /\ separators
       (md_line ["withdraw"; "['balance']"; "['require(bool)(msg.sender == owner)']"])
     = 4
  /\ separators (md_line (map py_str (state_var_row (named "a|b" "uint256")))) = 5.
Proof.
  assert (Forall (fun c => has_char backslash c = false)
            ["withdraw"; "['balance']"; "['require(bool)(msg.sender == owner)']"])
    as F by (repeat constructor).
  assert (Forall (fun c => has_char backslash c = false)
            (map py_str (state_var_row (named "a|b" "uint256"))))
    as G by (repeat constructor).
  destruct markdown_rows_match_headers as (_ & _ & Hs & Hf).
  split; [reflexivity|]. split; [exact F|]. split; [exact G|]. split.
  - exact (Hf vault 0 _ eq_refl F).
  - exact (Hs _ G).
Defined.

(** A backslash is written as it is: in a cell that holds a backslash before
    a pipe, the backslash added before the pipe is itself escaped, and the
    pipe separates two cells. *)
Example md_line_backslash_pipe :
  md_line ["a\|b"; "c"] = ("| a\\|b | c |" ++ nl)%string
  /\ separators (md_line ["a\|b"; "c"]) = 4.
Proof. split; vm_compute; reflexivity. Qed.

(** ** The names of the files *)

Section FileNames.

Lemma rfind_None_iff (c : ascii) (s : string) :
  rfind c s = None <-> has_char c s = false.
Proof.
  induction s as [|d s IH]; cbn [rfind has_char]; [easy|].
  destruct (rfind c s) as [i|].
  - split; [discriminate|]. intros H. apply orb_false_iff in H as [_ H].
    apply IH in H. discriminate.
  - destruct IH as [IH _]. rewrite (IH eq_refl), orb_false_r.
    destruct (Ascii.eqb c d); split; congruence.
Qed.

Lemma rfind_app (c : ascii) (a b : string) :
  rfind c (a ++ b)
  = match rfind c b with
    | Some i => Some (String.length a + i)
    | None => rfind c a
    end.
Proof.
  induction a as [|d a IH]; cbn [String.append rfind String.length].
  - now destruct (rfind c b).
  - rewrite IH. destruct (rfind c b) as [i|]; reflexivity.
Qed.

Lemma string_drop_app (a b : string) : string_drop (String.length a) (a ++ b) = b.
Proof. induction a as [|d a IH]; [now destruct b|exact IH]. Qed.

Lemma substring_0_app (a b : string) :
  String.substring 0 (String.length a) (a ++ b) = a.
Proof.
  induction a as [|d a IH]; cbn [String.length String.append String.substring].
  - now destruct b.
  - now rewrite IH.
Qed.

Lemma has_char_string_drop (c : ascii) (i : nat) :
  forall s, has_char c s = false -> has_char c (string_drop i s) = false.
Proof.
  induction i as [|i IH]; intros [|d s] H; cbn [string_drop]; auto.
  cbn [has_char] in H. apply orb_false_iff in H as [_ H]. now apply IH.
Qed.

Lemma has_char_substring (c : ascii) (s : string) :
  has_char c s = false ->
  forall n m, has_char c (String.substring n m s) = false.
Proof.
  induction s as [|d s IH]; intros H n m.
  - now destruct n, m.
  - cbn [has_char] in H. apply orb_false_iff in H as [Hd Hs].
    destruct n as [|n]; cbn [String.substring].
    + destruct m as [|m]; [reflexivity|]. cbn [has_char].
      now rewrite Hd, IH.
    + now apply IH.
Qed.

Lemma basename_no_slash (p : string) : has_char slash (basename p) = false.
Proof.
  unfold basename. induction p as [|d p IH]; [reflexivity|].
  cbn [rfind]. destruct (rfind slash p) as [i|] eqn:E.
  - exact IH.
  - apply rfind_None_iff in E.
    destruct (Ascii.eqb slash d) eqn:Ed; cbn [string_drop]; [exact E|].
    cbn [has_char]. now rewrite Ed, E.
Qed.

Lemma splitext_root_no_slash (p : string) :
  has_char slash p = false -> has_char slash (fst (splitext p)) = false.
Proof.
  intros H. unfold splitext. destruct (rfind dot p) as [d|]; [|exact H].
  match goal with |- context [if ?b then _ else _] => destruct b end;
    [|exact H].
  now apply has_char_substring.
Qed.

Lemma base_name_no_slash (_filename : string) :
  has_char slash (base_name _filename) = false.
Proof.
  unfold base_name. destruct (negb (String.eqb _filename EmptyString)).
  - apply splitext_root_no_slash, basename_no_slash.
  - reflexivity.
Qed.

Lemma starts_with_append (c : ascii) (a b : string) :
  has_char c a = false -> starts_with c b = false ->
  starts_with c (a ++ b) = false.
Proof.
  destruct a as [|d a]; [easy|]. cbn [has_char String.append starts_with].
  intros H _. now apply orb_false_iff in H as [H _].
Qed.

Lemma path_join_export_dir (name : string) :
  starts_with slash name = false ->
  path_join export_dir name = ("slither_export/" ++ name)%string.
Proof. intros H. unfold path_join. now rewrite H. Qed.

End FileNames.

(** X7: the prefix of the names of the exported files never holds a slash,
    whatever [_filename] is: it is the default [slither_vars_and_auth] for
    the empty text, and otherwise the last component of the path, without
    its extension.  For a path that ends in [name.ext] after its last slash,
    with a name and an extension that hold no dot, it is [name]. *)
Theorem base_name_is_a_file_name :
  (forall _filename, has_char slash (base_name _filename) = false)
  /\ base_name EmptyString = "slither_vars_and_auth"
  /\ (forall dir name ext c rest,
        name = String c rest ->
        has_char slash name = false -> has_char dot name = false ->
        has_char slash ext = false -> has_char dot ext = false ->
        base_name (dir ++ String slash (name ++ String dot ext)) = name
        /\ base_name (name ++ String dot ext) = name).
Proof.
  split; [exact base_name_no_slash|]. split; [reflexivity|].
  intros dir name ext c rest Ename Hsn Hdn Hse Hde.
  assert (has_char slash (name ++ String dot ext) = false) as Hs.
  { rewrite has_char_append, Hsn. cbn [has_char]. now rewrite Hse. }
  assert (fst (splitext (name ++ String dot ext)) = name) as Hsplit.
  { unfold splitext.
    apply rfind_None_iff in Hs. rewrite Hs.
    rewrite rfind_app. cbn [rfind].
    apply rfind_None_iff in Hde. rewrite Hde, Ascii.eqb_refl, Nat.add_0_r.
    cbn [Nat.leb andb]. rewrite Nat.sub_0_r, substring_0_app.
    assert (existsb (fun x => negb (Ascii.eqb x dot)) (list_ascii_of_string name)
            = true) as ->.
    { rewrite Ename in *. cbn [list_ascii_of_string existsb].
      cbn [has_char] in Hdn. apply orb_false_iff in Hdn as [Hc _].
      rewrite Ascii.eqb_sym, Hc. reflexivity. }
    reflexivity. }
  split.
  - unfold base_name.
    assert (String.eqb (dir ++ String slash (name ++ String dot ext)) EmptyString
            = false) as -> by now destruct dir.
    cbn [negb].
    assert (basename (dir ++ String slash (name ++ String dot ext))
            = (name ++ String dot ext)%string) as ->; [|exact Hsplit].
    unfold basename. rewrite rfind_app. cbn [rfind].
    apply rfind_None_iff in Hs. rewrite Hs, Ascii.eqb_refl, Nat.add_0_r.
    change (S (String.length dir)) with (1 + String.length dir).
    replace (1 + String.length dir) with (String.length (dir ++ String slash EmptyString))
      by (rewrite length_append; simpl; lia).
    replace (dir ++ String slash (name ++ String dot ext))%string
      with ((dir ++ String slash EmptyString) ++ (name ++ String dot ext))%string
      by now rewrite append_assoc.
    apply string_drop_app.
  - unfold base_name.
    assert (String.eqb (name ++ String dot ext) EmptyString = false) as ->
      by (rewrite Ename; reflexivity).
    cbn [negb].
    assert (basename (name ++ String dot ext) = (name ++ String dot ext)%string)
      as ->; [|exact Hsplit].
    unfold basename. apply rfind_None_iff in Hs. now rewrite Hs.
Qed.

Lemma base_name_is_a_file_name_witness :
  "Vault" = String "V" "ault"
  /\ has_char slash "Vault" = false /\ has_char dot "Vault" = false
  /\ has_char slash "sol" = false /\ has_char dot "sol" = false
  /\ base_name "../contracts/Vault.sol" = "Vault".
Proof.
  destruct base_name_is_a_file_name as (_ & _ & H).
  repeat (split; [reflexivity|]).
  exact (proj1 (H "../contracts" "Vault" "sol" "V"%char "ault"
                  eq_refl eq_refl eq_refl eq_refl eq_refl)).
Defined.

Section ExportedFiles.

Lemma file_name_no_leading_slash (filename_prefix rest : string) :
  has_char slash filename_prefix = false ->
  starts_with slash (filename_prefix ++ "_" ++ rest) = false.
Proof. intros H. now apply starts_with_append. Qed.

Lemma path_join_export_dir_inj (a b : string) :
  path_join export_dir a = path_join export_dir b -> a = b.
Proof.
  unfold path_join.
  assert (String.eqb export_dir EmptyString || ends_with slash export_dir = false)
    as -> by (vm_compute; reflexivity).
  destruct (starts_with slash a) eqn:Ha, (starts_with slash b) eqn:Hb; intros E.
  - exact E.
  - subst a. vm_compute in Ha. discriminate.
  - subst b. vm_compute in Hb. discriminate.
  - apply append_inv_head in E. now injection E.
Qed.

Lemma file_name_inj (filename_prefix c c' suffix : string) :
  (filename_prefix ++ "_" ++ c ++ suffix
   = filename_prefix ++ "_" ++ c' ++ suffix)%string -> c = c'.
Proof.
  intros E. apply append_inv_head in E. injection E as E.
  now apply append_tail_eq in E as [E _].
Qed.

Lemma file_name_tails (filename_prefix c c' m m' t t' : string) :
  String.length t = String.length t' -> t <> t' ->
  (filename_prefix ++ "_" ++ c ++ m ++ t)%string
  <> (filename_prefix ++ "_" ++ c' ++ m' ++ t')%string.
Proof.
  intros L Ht E. apply append_inv_head in E. injection E as E.
  rewrite <- !append_assoc in E. now apply append_tail_eq in E as [_ E].
Qed.

End ExportedFiles.

(** X8: whatever [_filename] is given to [output], the three files of a
    contract are written under the directory [slither_export]: the path of
    each is [slither_export/], the prefix, an underscore, the name of the
    contract and the ending of the file.  When the name of the contract
    holds no slash, the files are directly in that directory. *)
Theorem exported_files_in_export_dir (_filename contract_name : string) :
  let filename_prefix := base_name _filename in
  state_vars_filename filename_prefix contract_name
  = ("slither_export/" ++ filename_prefix ++ "_" ++ contract_name
     ++ "_state_variables.csv")%string
  /\ functions_filename filename_prefix contract_name
     = ("slither_export/" ++ filename_prefix ++ "_" ++ contract_name
        ++ "_functions.csv")%string
  /\ md_filename filename_prefix contract_name
     = ("slither_export/" ++ filename_prefix ++ "_" ++ contract_name
        ++ ".md")%string
  /\ (has_char slash contract_name = false ->
      has_char slash (filename_prefix ++ "_" ++ contract_name
                      ++ "_state_variables.csv") = false
      /\ has_char slash (filename_prefix ++ "_" ++ contract_name
                         ++ "_functions.csv") = false
      /\ has_char slash (filename_prefix ++ "_" ++ contract_name ++ ".md")
         = false).
Proof.
  intros filename_prefix.
  pose proof (base_name_no_slash _filename) as Hp. fold filename_prefix in Hp.
  unfold state_vars_filename, functions_filename, md_filename.
  rewrite !path_join_export_dir by now apply file_name_no_leading_slash.
  split; [reflexivity|]. split; [reflexivity|]. split; [reflexivity|].
  intros Hc.
  assert (forall suffix, has_char slash suffix = false ->
          has_char slash (filename_prefix ++ "_" ++ contract_name ++ suffix)
          = false) as H.
  { intros suffix Hs.
    rewrite has_char_append, Hp.
    change ("_" ++ contract_name ++ suffix)%string
      with (String "_" (contract_name ++ suffix)).
    cbn [has_char]. rewrite has_char_append, Hc, Hs. vm_compute. reflexivity. }
  repeat split; apply H; vm_compute; reflexivity.
Qed.

Lemma exported_files_in_export_dir_witness :
  has_char slash "Vault" = false
  /\ md_filename (base_name "/etc/passwd") "Vault"
     = "slither_export/passwd_Vault.md"
  /\ has_char slash "passwd_Vault.md" = false.
Proof.
  destruct (exported_files_in_export_dir "/etc/passwd" "Vault")
    as (_ & _ & Hmd & H).
  assert (has_char slash "Vault" = false) as Hc by (vm_compute; reflexivity).
  split; [exact Hc|]. split; [exact Hmd|].
  exact (proj2 (proj2 (H Hc))).
Defined.

(** X9: the files of two contracts of different names are different files,
    for each of the three kinds, and a file of one kind is never a file of
    another kind, whatever the contracts: no export overwrites another. *)
Theorem exported_files_distinct (filename_prefix c c' : string) :
  (c <> c' ->
     state_vars_filename filename_prefix c <> state_vars_filename filename_prefix c'
     /\ functions_filename filename_prefix c <> functions_filename filename_prefix c'
     /\ md_filename filename_prefix c <> md_filename filename_prefix c')
  /\ state_vars_filename filename_prefix c <> functions_filename filename_prefix c'
  /\ state_vars_filename filename_prefix c <> md_filename filename_prefix c'
  /\ functions_filename filename_prefix c <> md_filename filename_prefix c'.
Proof.
  unfold state_vars_filename, functions_filename, md_filename.
  split; [|split; [|split]].
  - intros Hne. repeat split; intros E; apply path_join_export_dir_inj in E;
      apply file_name_inj in E; contradiction.
  - intros E. apply path_join_export_dir_inj in E. revert E.
    apply (file_name_tails filename_prefix c c'
             "_state_variabl" "_functio" "es.csv" "ns.csv");
      [reflexivity|discriminate].
  - intros E. apply path_join_export_dir_inj in E. revert E.
    apply (file_name_tails filename_prefix c c'
             "_state_variables.cs" ".m" "v" "d");
      [reflexivity|discriminate].
  - intros E. apply path_join_export_dir_inj in E. revert E.
    apply (file_name_tails filename_prefix c c'
             "_functions.cs" ".m" "v" "d");
      [reflexivity|discriminate].
Qed.

Lemma exported_files_distinct_witness :
  "Vault" <> "Token"
  /\ md_filename "audit" "Vault" <> md_filename "audit" "Token".
Proof.
  assert ("Vault" <> "Token") as H by discriminate.
  split; [exact H|].
  exact (proj2 (proj2 (proj1 (exported_files_distinct "audit" "Vault" "Token") H))).
Defined.

(** ** Checks inherited along the calls *)

(** X10: a check of the caller that a function makes, or that a function it
    reaches through its internal calls makes, is reported for every function
    that reaches it through internal calls: the conditions go up the call
    chains. *)
Theorem guards_inherited_from_callee (pm : Program) (caller callee : nat)
    (Hcall : reaches pm caller callee)
    (t : string) (g : nat) (n : Node.t)
    (Hg : g = callee \/ reaches pm callee g)
    (Hn : In n (Function.nodes (fn pm g)))
    (Hgated : identity_gated n)
    (Ht : Node.expression n = t) :
  exists gs, guards pm caller = Some gs /\ In t gs.
Proof.
  destruct (closure_members pm caller) as (fs & _ & Eg & Hfs).
  unfold guards. rewrite Eg. simpl. eexists. split; [reflexivity|].
  rewrite sorted_In. apply conditions_of_nodes_In.
  exists n. split; [|now split].
  apply all_nodes_In. exists g. split; [|exact Hn].
  apply Hfs. right. left.
  destruct Hg as [->|Hg]; [exact Hcall|].
  eapply t_trans; eassumption.
Qed.

Lemma guards_inherited_from_callee_witness :
  reaches diamond 0 1
  /\ reaches diamond 1 3
  /\ In (require_node [msg_sender] owner_check) (Function.nodes (fn diamond 3))
  /\ identity_gated (require_node [msg_sender] owner_check)
  /\ exists gs, guards diamond 0 = Some gs /\ In owner_check gs.
Proof.
  assert (reaches diamond 0 1) as H01
      by (apply t_step; exists (call 1); split; [now left|reflexivity]).
  assert (reaches diamond 1 3) as H13
      by (apply t_step; exists (call 3); split; [now left|reflexivity]).
  assert (In (require_node [msg_sender] owner_check)
             (Function.nodes (fn diamond 3))) as Hn by (left; reflexivity).
  assert (identity_gated (require_node [msg_sender] owner_check)) as Hi.
  { split; [now right|]. exists msg_sender. split; [now left|reflexivity]. }
  split; [exact H01|]. split; [exact H13|]. split; [exact Hn|].
  split; [exact Hi|].
  exact (guards_inherited_from_callee diamond 0 1 H01 owner_check 3 _
           (or_intror H13) Hn Hi eq_refl).
Defined.
